(** * mantaray/commands.py: the slash-command dispatcher

    A shallow embedding of [mantaray/commands.py] and of the Python
    built-ins it relies on ([re.fullmatch], [str.split], [str.splitlines],
    [str.count], [str.strip], [str.startswith]), followed by the
    properties of [handle_command], [add_command] and [escape_message].

    A Python [str] is a sequence of Unicode code points; it is modelled as
    a list of code points of type [N]. *)

From Stdlib Require Import NArith Ascii String Lia ZifyBool ZifyN.
From stdpp Require Import base list gmap.

Local Open Scope N_scope.

(** ** Strings *)

Abbreviation char := N.
Abbreviation str := (list N).

(** A string literal of the source, as a list of code points. *)
Definition lit (s : string) : str := map N_of_ascii (list_ascii_of_string s).

Definition SLASH : char := 47.
Definition SPACE : char := 32.
Definition LF : char := 10.
Definition CR : char := 13.
Definition TAB : char := 9.
Definition LT : char := 60.
Definition GT : char := 62.
Definition LBRACKET : char := 91.
Definition RBRACKET : char := 93.
Definition UNDERSCORE : char := 95.

(** [str.isspace] on one code point: the characters [str.split] with no
    separator splits on. *)
Definition is_space (c : char) : bool :=
  ((9 <=? c) && (c <=? 13)) || ((28 <=? c) && (c <=? 32))
  || (c =? 133) || (c =? 160) || (c =? 5760)
  || ((8192 <=? c) && (c <=? 8202))
  || (c =? 8232) || (c =? 8233) || (c =? 8239) || (c =? 8287) || (c =? 12288).

(** The line boundaries of [str.splitlines]: LF, VT, FF, CR, FS, GS, RS,
    NEL, LINE SEPARATOR and PARAGRAPH SEPARATOR. *)
Definition is_linebreak (c : char) : bool :=
  ((10 <=? c) && (c <=? 13)) || ((28 <=? c) && (c <=? 30))
  || (c =? 133) || (c =? 8232) || (c =? 8233).

(** The class [[a-z]] and the class [[a-z_]] of the two patterns. *)
Definition is_lower (c : char) : bool := (97 <=? c) && (c <=? 122).
Definition is_ident (c : char) : bool := is_lower c || (c =? UNDERSCORE).

(** The class [.] (no DOTALL flag): anything but a line feed. *)
Definition is_dot (c : char) : bool := negb (c =? LF).

(** [s.startswith(p)] *)
Fixpoint startswith (p s : str) : bool :=
  match p, s with
  | [], _ => true
  | a :: p', b :: s' => (a =? b) && startswith p' s'
  | _ :: _, [] => false
  end.

(** [span p s]: the longest prefix of [s] whose characters satisfy [p], and
    the rest. *)
Fixpoint span (p : char → bool) (s : str) : str * str :=
  match s with
  | [] => ([], [])
  | c :: s' => if p c then let '(a, b) := span p s' in (c :: a, b) else ([], s)
  end.

Definition lstrip_by (p : char → bool) (s : str) : str := (span p s).2.
Definition rstrip_by (p : char → bool) (s : str) : str :=
  reverse (lstrip_by p (reverse s)).

(** [s.strip(chars)] *)
Definition strip (chars : str) (s : str) : str :=
  let p c := existsb (N.eqb c) chars in rstrip_by p (lstrip_by p s).

(** [s.split(maxsplit=n)] with no separator, for [n >= 0]: up to [n] words
    are cut off at runs of whitespace; what is left after them is kept whole
    from its first character that is not whitespace to the end of the
    string. *)
Fixpoint split_max (n : nat) (s : str) : list str :=
  let r := lstrip_by is_space s in
  match r with
  | [] => []
  | _ :: _ =>
      match n with
      | O => [r]
      | S n' => let '(w, rest) := span (λ c, negb (is_space c)) r in
                w :: split_max n' rest
      end
  end.

(** [s.split()]: no bound on the number of words. *)
Fixpoint split (s : str) : list str :=
  match s with
  | [] => []
  | c :: s' =>
      if is_space c then split s'
      else match s' with
           | [] => [[c]]
           | c' :: _ =>
               if is_space c' then [c] :: split s'
               else match split s' with
                    | w :: ws => (c :: w) :: ws
                    | [] => [[c]]
                    end
           end
  end.

(** [s.splitlines()]: CR LF counts as one boundary, and a boundary at the
    very end opens no further line. *)
Fixpoint splitlines (s : str) : list str :=
  match s with
  | [] => []
  | c :: s' =>
      if is_linebreak c then
        [] :: match s' with
              | c' :: s'' => if (c =? CR) && (c' =? LF) then splitlines s''
                             else splitlines s'
              | [] => []
              end
      else match splitlines s' with
           | l :: ls => (c :: l) :: ls
           | [] => [[c]]
           end
  end.

(** [s.count(sub)] for a non-empty [sub]: occurrences found left to right,
    without overlap. [skip] is the number of characters still covered by the
    occurrence found last. *)
Fixpoint count_from (skip : nat) (sub s : str) : nat :=
  match s with
  | [] => O
  | _ :: s' =>
      match skip with
      | S k => count_from k sub s'
      | O => if startswith sub s then S (count_from (length sub - 1) sub s')
             else count_from O sub s'
      end
  end.

Definition count (sub s : str) : nat := count_from O sub s.

(** ** Regular expressions

    The two patterns of the source are plain regular expressions (classes,
    concatenation, [+], [*], [?]); [re.fullmatch] succeeds exactly when the
    whole string belongs to the language of the pattern. The matcher works
    by derivatives. *)

Inductive re : Type :=
  | Void
  | Eps
  | Cls (p : char → bool)
  | Cat (r1 r2 : re)
  | Alt (r1 r2 : re)
  | Star (r : re).

Definition Chr (c : char) : re := Cls (N.eqb c).
Definition Plus (r : re) : re := Cat r (Star r).
Definition Opt (r : re) : re := Alt r Eps.
Definition Lit (s : str) : re := foldr (λ c r, Cat (Chr c) r) Eps s.

Fixpoint nullable (r : re) : bool :=
  match r with
  | Void => false
  | Eps => true
  | Cls _ => false
  | Cat r1 r2 => nullable r1 && nullable r2
  | Alt r1 r2 => nullable r1 || nullable r2
  | Star _ => true
  end.

Definition cat' (r1 r2 : re) : re :=
  match r1 with
  | Void => Void
  | Eps => r2
  | _ => Cat r1 r2
  end.

Definition alt' (r1 r2 : re) : re :=
  match r1, r2 with
  | Void, _ => r2
  | _, Void => r1
  | _, _ => Alt r1 r2
  end.

Fixpoint deriv (c : char) (r : re) : re :=
  match r with
  | Void => Void
  | Eps => Void
  | Cls p => if p c then Eps else Void
  | Cat r1 r2 =>
      if nullable r1 then alt' (cat' (deriv c r1) r2) (deriv c r2)
      else cat' (deriv c r1) r2
  | Alt r1 r2 => alt' (deriv c r1) (deriv c r2)
  | Star r1 => cat' (deriv c r1) (Star r1)
  end.

(** [re.fullmatch(r, s)], as a truth value. *)
Fixpoint fullmatch (r : re) (s : str) : bool :=
  match s with
  | [] => nullable r
  | c :: s' => fullmatch (deriv c r) s'
  end.

(** The language of a pattern. *)
Inductive Matches : re → str → Prop :=
  | MEps : Matches Eps []
  | MCls p c : p c = true → Matches (Cls p) [c]
  | MCat r1 r2 s1 s2 : Matches r1 s1 → Matches r2 s2 → Matches (Cat r1 r2) (s1 ++ s2)
  | MAltL r1 r2 s : Matches r1 s → Matches (Alt r1 r2) s
  | MAltR r1 r2 s : Matches r2 s → Matches (Alt r1 r2) s
  | MStar0 r : Matches (Star r) []
  | MStarS r s1 s2 : Matches r s1 → Matches (Star r) s2 → Matches (Star r) (s1 ++ s2).

(** The pattern of [handle_command]: a slash, [[a-z]+], then an optional
    group made of one space and any run of [.]. *)
Definition command_re : re :=
  Cat (Chr SLASH)
    (Cat (Plus (Cls is_lower))
       (Opt (Cat (Chr SPACE) (Star (Cls is_dot))))).

(** The pattern of [add_command]: a slash, [[a-z]+], any number of groups
    made of a space, [<], [[a-z_]+] and [>], then any number of groups made
    of a space, an opening bracket, [<], [[a-z_]+], [>] and a closing
    bracket. *)
Definition usage_re : re :=
  Cat (Chr SLASH)
    (Cat (Plus (Cls is_lower))
       (Cat (Star (Cat (Lit (lit " <")) (Cat (Plus (Cls is_ident)) (Lit (lit ">")))))
            (Star (Cat (Lit (lit " [<")) (Cat (Plus (Cls is_ident)) (Lit (lit ">]"))))))).

(** ** Effects

    The dispatcher acts on three collaborators: the backend [core], the
    [view] it was called for, and the yes/no dialog. A run is described by
    the calls it makes on them, in order, and by what it returns or raises. *)

Inductive event : Type :=
  | core_send_privmsg (target message : str)
  | core_join_channel (channel : str)
  | core_part_channel (channel : str)
  | core_quit
  | core_change_nick (new_nick : str)
  | core_change_topic (channel new_topic : str)
  (** [view.add_message(sender, (text, []))] *)
  | view_add_message (sender text : str)
  (** [messagebox.askyesno(...)], asked about [n] lines *)
  | messagebox_askyesno (n : nat).

Inductive exn : Type := AssertionError | IndexError | TypeError.

Inductive result (A : Type) : Type :=
  | Val (a : A)
  | Exc (e : exn).
Arguments Val {A} a.
Arguments Exc {A} e.

(** A computation: the calls made, then the value returned or the
    exception raised. *)
Definition M (A : Type) : Type := list event * result A.

Definition ret {A} (a : A) : M A := ([], Val a).
Definition raise {A} (e : exn) : M A := ([], Exc e).
Definition emit (ev : event) : M unit := ([ev], Val ()).
Definition bind {A B} (f : A → M B) (m : M A) : M B :=
  match m with
  | (t1, Val a) => let '(t2, r) := f a in (t1 ++ t2, r)
  | (t1, Exc e) => (t1, Exc e)
  end.

#[export] Instance M_ret : MRet M := @ret.
#[export] Instance M_bind : MBind M := @bind.

(** [for x in l: f(x)] *)
Fixpoint for_each {A} (l : list A) (f : A → M unit) : M unit :=
  match l with
  | [] => ret ()
  | x :: l' => f x ;; for_each l' f
  end.

(** [l[0]] *)
Definition index0 {A} (l : list A) : M A :=
  match l with
  | x :: _ => ret x
  | [] => raise IndexError
  end.

(** The calls made on the backend, on the view and on the dialog. *)
Definition is_core_call (ev : event) : bool :=
  match ev with
  | view_add_message _ _ | messagebox_askyesno _ => false
  | _ => true
  end.
Definition is_send (ev : event) : bool :=
  match ev with core_send_privmsg _ _ => true | _ => false end.
Definition is_view_message (ev : event) : bool :=
  match ev with view_add_message _ _ => true | _ => false end.
Definition is_confirmation (ev : event) : bool :=
  match ev with messagebox_askyesno _ => true | _ => false end.

Definition core_calls (t : list event) : list event := List.filter is_core_call t.
Definition sends (t : list event) : list event := List.filter is_send t.
Definition view_messages (t : list event) : list event := List.filter is_view_message t.
Definition confirmations (t : list event) : list event := List.filter is_confirmation t.

(** ** Views *)

(** Modelled from the spec: the classes [View], [ChannelView] and [PMView]
    of [mantaray/views.py], which is not part of the sources. The spec gives
    the conversation context as one of channel (carrying the channel name),
    direct message (carrying the other party's nick) and other (no send
    target). [isinstance(view, ChannelView)] and [isinstance(view, PMView)]
    are the tests of the first two variants. *)
Inductive View : Type :=
  | ChannelView (channel_name : str)
  | PMView (other_nick : str)
  | OtherView.

(** ** commands.py *)

(** A registered command, called as [func(view, core, **kwargs)]. *)
Abbreviation handler := (View → gmap str str → M unit).

(** Binding of keyword arguments to the parameters of a [def]: a keyword
    that is no parameter, or a parameter without default that gets no
    value, is a [TypeError]. *)
Definition accepts (names : list str) (kw : gmap str str) : M unit :=
  if bool_decide (dom kw ⊆ list_to_set names) then ret () else raise TypeError.

Definition required (kw : gmap str str) (name : str) : M str :=
  match kw !! name with
  | Some v => ret v
  | None => raise TypeError
  end.

(** [def f(view, core)], [def f(view, core, p)],
    [def f(view, core, p=None)] and [def f(view, core, p1, p2)], called with
    keyword arguments. *)
Definition def0 (f : View → M unit) : handler := λ view kw,
  accepts [] kw ;; f view.

Definition def1 (p : str) (f : View → str → M unit) : handler := λ view kw,
  accepts [p] kw ;; a ← required kw p; f view a.

Definition def1_opt (p : str) (f : View → option str → M unit) : handler :=
  λ view kw, accepts [p] kw ;; f view (kw !! p).

Definition def2 (p1 p2 : str) (f : View → str → str → M unit) : handler :=
  λ view kw,
  accepts [p1; p2] kw ;; a1 ← required kw p1; a2 ← required kw p2; f view a1 a2.

(** The keyword arguments of the call: the words of [usage] after the
    first, stripped of brackets, zipped with [args] into a dict (a later
    entry replaces an earlier one of the same name). *)
Definition kwargs (usage : str) (args : list str) : gmap str str :=
  foldl (λ d na, <[strip (lit "[<>]") na.1 := na.2]> d) ∅
        (zip (tail (split usage)) args).

(** [add_command(usage)(func)], acting on [_commands]. *)
Definition add_command (usage : str) (func : handler)
    (_commands : gmap str (str * handler)) : result (gmap str (str * handler)) :=
  if fullmatch usage_re usage then
    match split usage with
    | name :: _ => Val (<[name := (usage, func)]> _commands)
    | [] => Exc IndexError
    end
  else Exc AssertionError.

Definition not_sendable : str :=
  lit "You can't send messages here. Join a channel instead and send messages there.".

Definition _send_privmsg (view : View) (message : str) : M unit :=
  match view with
  | ChannelView channel_name => emit (core_send_privmsg channel_name message)
  | PMView other_nick => emit (core_send_privmsg other_nick message)
  | OtherView => emit (view_add_message (lit "*") not_sendable)
  end.

Definition escape_message (s : str) : str :=
  if startswith (lit "/") s then lit "/" ++ s else s.

(** [messagebox.askyesno(...)]: the dialog is shown for [n] lines and the
    user's answer, given by [answer], comes back. *)
Definition askyesno (answer : nat → bool) (n : nat) : M bool :=
  emit (messagebox_askyesno n) ;; ret (answer n).

(** The positional arguments of a command line: the words after the first,
    the last one running to the end of the line. *)
Definition command_args (usage entry_content : str) : list str :=
  tail (split_max (Nat.max (count (lit " ") usage) 1) entry_content).

(** The branch of [handle_command] taken when the pattern matches
    (lines 54 to 74). *)
Definition command_path (_commands : gmap str (str * handler))
    (view : View) (entry_content : str) : M bool :=
  name ← index0 (split entry_content);
  match _commands !! name with
  | None =>
      token ← index0 (split entry_content);
      emit (view_add_message (lit "*")
              (lit "No command named '" ++ token ++ lit "'")) ;;
      ret false
  | Some (usage, func) =>
      let args := command_args usage entry_content in
      if (length args <? count (lit " <") usage)%nat
         || (count (lit " ") usage <? length args)%nat
      then
        emit (view_add_message (lit "*") (lit "Usage: " ++ usage)) ;;
        ret false
      else
        func view (kwargs usage args) ;;
        ret true
  end.

(** The lines of a plain-text entry (lines 76 to 79). *)
Definition lines_of (entry_content : str) : list str :=
  if startswith (lit "//") entry_content
  then splitlines (tail entry_content)
  else splitlines entry_content.

(** The confirmation and the sending loop (lines 81 to 99). *)
Definition send_lines (answer : nat → bool) (view : View)
    (lines : list str) : M bool :=
  result ← (if (3 <? length lines)%nat
            then askyesno answer (length lines)
            else ret true);
  if negb result then ret false
  else
    for_each lines (λ line, _send_privmsg view line) ;;
    ret true.

(** The branch of [handle_command] taken when the pattern does not match
    (lines 76 to 99). *)
Definition plain_text_path (answer : nat → bool) (view : View)
    (entry_content : str) : M bool :=
  send_lines answer view (lines_of entry_content).

Definition handle_command (_commands : gmap str (str * handler))
    (answer : nat → bool) (view : View) (entry_content : str) : M bool :=
  match entry_content with
  | [] => ret false
  | _ :: _ =>
      if fullmatch command_re entry_content
      then command_path _commands view entry_content
      else plain_text_path answer view entry_content
  end.

(** *** The default commands *)

Definition join (view : View) (channel : str) : M unit :=
  emit (core_join_channel channel).

Definition part (view : View) (channel : option str) : M unit :=
  match channel with
  | Some channel => emit (core_part_channel channel)
  | None =>
      match view with
      | ChannelView channel_name => emit (core_part_channel channel_name)
      | _ =>
          emit (view_add_message (lit "*") (lit "Usage: /part [<channel>]")) ;;
          emit (view_add_message (lit "*")
                  (lit "Channel is needed unless you are currently on a channel."))
      end
  end.

Definition quit (view : View) : M unit := emit core_quit.

Definition nick (view : View) (new_nick : str) : M unit :=
  emit (core_change_nick new_nick).

Definition topic (view : View) (new_topic : str) : M unit :=
  match view with
  | ChannelView channel_name => emit (core_change_topic channel_name new_topic)
  | _ => emit (view_add_message (lit "*")
                 (lit "You must be on a channel to change its topic."))
  end.

(** ["\x01ACTION " + message + "\x01"] *)
Definition me (view : View) (message : str) : M unit :=
  _send_privmsg view ([1] ++ lit "ACTION " ++ message ++ [1]).

Definition msg (view : View) (nick message : str) : M unit :=
  emit (core_send_privmsg nick message).

Definition msg_nickserv (view : View) (message : str) : M unit :=
  msg view (lit "NickServ") message.

Definition msg_memoserv (view : View) (message : str) : M unit :=
  msg view (lit "MemoServ") message.

(** The usage strings and functions registered by [_add_default_commands],
    in the order in which the registrations take effect. *)
Definition default_registrations : list (str * handler) :=
  [ (lit "/join <channel>", def1 (lit "channel") join);
    (lit "/part [<channel>]", def1_opt (lit "channel") part);
    (lit "/quit", def0 quit);
    (lit "/nick <new_nick>", def1 (lit "new_nick") nick);
    (lit "/topic <new_topic>", def1 (lit "new_topic") topic);
    (lit "/me <message>", def1 (lit "message") me);
    (lit "/msg <nick> <message>", def2 (lit "nick") (lit "message") msg);
    (lit "/nickserv <message>", def1 (lit "message") msg_nickserv);
    (lit "/ns <message>", def1 (lit "message") msg_nickserv);
    (lit "/memoserv <message>", def1 (lit "message") msg_memoserv);
    (lit "/ms <message>", def1 (lit "message") msg_memoserv) ].

Fixpoint add_commands (regs : list (str * handler))
    (_commands : gmap str (str * handler)) : result (gmap str (str * handler)) :=
  match regs with
  | [] => Val _commands
  | (usage, func) :: regs' =>
      match add_command usage func _commands with
      | Val _commands' => add_commands regs' _commands'
      | Exc e => Exc e
      end
  end.

Definition _add_default_commands : result (gmap str (str * handler)) :=
  add_commands default_registrations ∅.

(** [_commands] once the module is loaded. *)
Definition default_commands : gmap str (str * handler) :=
  match _add_default_commands with
  | Val _commands => _commands
  | Exc _ => ∅
  end.

(** ** Vocabulary of the properties *)

(** A command name, [[a-z]+], and a parameter name, [[a-z_]+]. *)
Definition well_named (name : str) : Prop :=
  name ≠ [] ∧ forallb is_lower name = true.
Definition well_ident (i : str) : Prop :=
  i ≠ [] ∧ forallb is_ident i = true.

(** The tokens of a usage string and the usage string made of a name,
    required parameters and optional parameters. *)
Definition req_token (i : str) : str := lit " <" ++ i ++ lit ">".
Definition opt_token (i : str) : str := lit " [<" ++ i ++ lit ">]".
Definition usage_string (name : str) (reqs opts : list str) : str :=
  lit "/" ++ name ++ concat (map req_token reqs) ++ concat (map opt_token opts).

(** The shape of a command line as [command_re] has it: a slash, a name,
    then nothing or a space followed by anything except a line feed. *)
Definition command_shaped (s : str) : Prop :=
  ∃ name rest, s = SLASH :: name ++ rest ∧ well_named name ∧
    (rest = [] ∨ ∃ t, rest = SPACE :: t ∧ forallb is_dot t = true).

(** The shape of a command line in the words of the specification: a
    slash, a name, then nothing or a whitespace character followed by
    anything. *)
Definition spec_command_shaped (s : str) : Prop :=
  ∃ name rest, s = SLASH :: name ++ rest ∧ well_named name ∧
    (rest = [] ∨ ∃ c t, rest = c :: t ∧ is_space c = true).

(** A string without any line boundary, and a string of whitespace only. *)
Definition single_line (s : str) : Prop :=
  forallb (λ c, negb (is_linebreak c)) s = true.
Definition only_whitespace (s : str) : Prop :=
  forallb is_space s = true.

(** What may follow a word: the end of the string, or whitespace. *)
Definition word_end (s : str) : Prop :=
  ∀ c s', s = c :: s' → is_space c = true.

(** The one call [_send_privmsg] makes. *)
Definition send_event (view : View) (message : str) : event :=
  match view with
  | ChannelView channel_name => core_send_privmsg channel_name message
  | PMView other_nick => core_send_privmsg other_nick message
  | OtherView => view_add_message (lit "*") not_sendable
  end.

(** What follows the first opening bracket of a string, bracket included. *)
Definition after_bracket (s : str) : str :=
  lstrip_by (λ c, negb (c =? LBRACKET)) s.

(** Every usage string kept in the registry matches [usage_re]. *)
Definition registry_ok (_commands : gmap str (str * handler)) : Prop :=
  ∀ name usage func,
    _commands !! name = Some (usage, func) → fullmatch usage_re usage = true.

(** A string without opening bracket. *)
Definition no_bracket (w : str) : Prop :=
  forallb (λ x, negb (x =? LBRACKET)) w = true.

(** A string without the character U+0020. *)
Definition no_SPACE (w : str) : Prop :=
  forallb (λ c, negb (c =? SPACE)) w = true.

(** [s.lstrip()] *)
Definition lstrip (s : str) : str := lstrip_by is_space s.

(** The words of a usage string after the command word. *)
Definition req_word (i : str) : str := lit "<" ++ i ++ lit ">".
Definition opt_word (i : str) : str := lit "[<" ++ i ++ lit ">]".

(** Every entry of the registry is kept under the first word of its usage
    string, and that usage string matches [usage_re]. *)
Definition registry_keyed (_commands : gmap str (str * handler)) : Prop :=
  ∀ key usage func,
    _commands !! key = Some (usage, func) →
    fullmatch usage_re usage = true ∧ head (split usage) = Some key.


(** The dict [{name: arg for name, arg in zip(names, args)}]. *)
Definition dict_of_zip (names args : list str) : gmap str str :=
  foldl (λ d na, <[na.1 := na.2]> d) ∅ (zip names args).

(** Proofs that look a command up in [default_commands] only compare the
    registered functions, they never run them: the functions are replaced
    by variables before the registry is computed. *)
Ltac hide_handlers :=
  unfold default_commands, _add_default_commands, default_registrations;
  repeat match goal with
    | |- context [def0 ?f] => generalize (def0 f); intro
    | |- context [def1 ?p ?f] => generalize (def1 p f); intro
    | |- context [def1_opt ?p ?f] => generalize (def1_opt p f); intro
    | |- context [def2 ?p ?q ?f] => generalize (def2 p q f); intro
    end.

Ltac lookup_default := hide_handlers; vm_compute; reflexivity.

(** The side conditions of [run_one_argument] and [run_two_arguments] for
    a default command. *)
Ltac one_argument_command :=
  [> split; [discriminate | vm_compute; reflexivity]
   | lookup_default
   | vm_compute; reflexivity
   | vm_compute; reflexivity
   | intros ?; vm_compute; reflexivity
   | assumption
   | assumption ].

Ltac two_argument_command :=
  [> split; [discriminate | vm_compute; reflexivity]
   | discriminate
   | vm_compute; reflexivity
   | vm_compute; reflexivity
   | lookup_default
   | vm_compute; reflexivity
   | vm_compute; reflexivity
   | intros ?; vm_compute; reflexivity
   | assumption
   | assumption ].

(** The side conditions of [run_single_argument] and [run_no_argument]
    for a default command. *)
Ltac single_argument_command :=
  [> split; [discriminate | vm_compute; reflexivity]
   | lookup_default
   | vm_compute; reflexivity
   | vm_compute; lia
   | intros ?; try (match goal with v : View |- _ => destruct v end);
     vm_compute; reflexivity
   | assumption
   | assumption ].


(** ** The matcher is [re.fullmatch] *)

Section regex.

Implicit Types (r : re) (s : str) (c : char).

Lemma Matches_Void s : ¬ Matches Void s.
Proof. inversion 1. Qed.

Lemma Matches_Eps s : Matches Eps s ↔ s = [].
Proof. split; [by inversion 1 | intros ->; constructor]. Qed.

Lemma Matches_Cls p s : Matches (Cls p) s ↔ ∃ c, s = [c] ∧ p c = true.
Proof.
  split; [inversion 1; eauto | intros (c & -> & ?); by constructor].
Qed.

Lemma Matches_Cat r1 r2 s :
  Matches (Cat r1 r2) s ↔ ∃ s1 s2, s = s1 ++ s2 ∧ Matches r1 s1 ∧ Matches r2 s2.
Proof.
  split; [inversion 1; eauto | intros (s1 & s2 & -> & ? & ?); by constructor].
Qed.

Lemma Matches_Alt r1 r2 s :
  Matches (Alt r1 r2) s ↔ Matches r1 s ∨ Matches r2 s.
Proof.
  split; [inversion 1; eauto | intros [?|?]; [by apply MAltL | by apply MAltR]].
Qed.

Lemma Matches_Star_cons r c s :
  Matches (Star r) (c :: s) →
  ∃ s1 s2, s = s1 ++ s2 ∧ Matches r (c :: s1) ∧ Matches (Star r) s2.
Proof.
  intros H. remember (Star r) as r' eqn:Er. remember (c :: s) as s' eqn:Es.
  revert s Es. induction H as [| | | | | |r0 s1 s2 H1 _ H2 IH]; intros s0 Es; try done.
  injection Er as ->. destruct s1 as [|c1 s1]; simpl in Es.
  - by apply IH.
  - injection Es as -> <-. eauto.
Qed.

Lemma nullable_spec r : nullable r = true ↔ Matches r [].
Proof.
  induction r as [| |p|r1 IH1 r2 IH2|r1 IH1 r2 IH2|r IH]; simpl.
  - split; [done | by intros ?%Matches_Void].
  - split; [constructor | done].
  - split; [done | by intros (c & ? & _)%Matches_Cls].
  - rewrite andb_true_iff, IH1, IH2, Matches_Cat. split.
    + intros [? ?]. by exists [], [].
    + intros (s1 & s2 & E & ? & ?). symmetry in E.
      apply app_eq_nil in E as [-> ->]. done.
  - by rewrite orb_true_iff, IH1, IH2, Matches_Alt.
  - split; [constructor | done].
Qed.

Lemma cat'_spec r1 r2 s : Matches (cat' r1 r2) s ↔ Matches (Cat r1 r2) s.
Proof.
  destruct r1; simpl; try done.
  - rewrite Matches_Cat. split; [by intros ?%Matches_Void |].
    by intros (? & ? & _ & ?%Matches_Void & _).
  - rewrite Matches_Cat. split.
    + intros ?. exists [], s. split_and!; [done | constructor | done].
    + by intros (? & ? & -> & ->%Matches_Eps & ?).
Qed.

Lemma alt'_spec r1 r2 s : Matches (alt' r1 r2) s ↔ Matches (Alt r1 r2) s.
Proof.
  rewrite Matches_Alt.
  destruct r1, r2; simpl; rewrite ?Matches_Alt;
    split; intros; destruct_or?; eauto;
    exfalso; by eapply Matches_Void.
Qed.

Lemma deriv_spec r c s : Matches (deriv c r) s ↔ Matches r (c :: s).
Proof.
  revert s. induction r as [| |p|r1 IH1 r2 IH2|r1 IH1 r2 IH2|r IH]; intros s; simpl.
  - split; by intros ?%Matches_Void.
  - split; [by intros ?%Matches_Void | by intros ?%Matches_Eps].
  - rewrite Matches_Cls. destruct (p c) eqn:Ep.
    + rewrite Matches_Eps. split; [intros ->; eauto |].
      by intros (? & [= -> ->] & _).
    + split; [by intros ?%Matches_Void |].
      intros (? & [= -> ->] & ?). congruence.
  - assert (Matches (cat' (deriv c r1) r2) s ↔
            ∃ s1 s2, s = s1 ++ s2 ∧ Matches r1 (c :: s1) ∧ Matches r2 s2) as Hcat.
    { rewrite cat'_spec, Matches_Cat. by setoid_rewrite IH1. }
    rewrite Matches_Cat. destruct (nullable r1) eqn:En.
    + rewrite alt'_spec, Matches_Alt, Hcat, IH2. split.
      * intros [(s1 & s2 & -> & ? & ?)|?].
        -- by exists (c :: s1), s2.
        -- exists [], (c :: s). by rewrite <- nullable_spec.
      * intros (s1 & s2 & E & H1 & H2). destruct s1 as [|c1 s1]; simpl in E.
        -- right. by rewrite E.
        -- injection E as <- ->. left. eauto.
    + rewrite Hcat. split.
      * intros (s1 & s2 & -> & ? & ?). by exists (c :: s1), s2.
      * intros (s1 & s2 & E & H1 & H2). destruct s1 as [|c1 s1]; simpl in E.
        -- apply nullable_spec in H1. congruence.
        -- injection E as <- ->. eauto.
  - by rewrite alt'_spec, !Matches_Alt, IH1, IH2.
  - rewrite cat'_spec, Matches_Cat. setoid_rewrite IH. split.
    + intros (s1 & s2 & -> & ? & ?). by apply (MStarS r (c :: s1) s2).
    + apply Matches_Star_cons.
Qed.

Lemma fullmatch_spec r s : fullmatch r s = true ↔ Matches r s.
Proof.
  revert r. induction s as [|c s IH]; intros r; simpl.
  - apply nullable_spec.
  - by rewrite IH, deriv_spec.
Qed.

End regex.

(** ** The languages of the two patterns *)

Section languages.

Implicit Types (r : re) (s : str) (c : char).

Lemma Matches_Chr c s : Matches (Chr c) s ↔ s = [c].
Proof.
  unfold Chr. rewrite Matches_Cls. split.
  - by intros (c' & -> & ->%N.eqb_eq).
  - intros ->. exists c. by rewrite N.eqb_refl.
Qed.

Lemma Matches_Lit l s : Matches (Lit l) s ↔ s = l.
Proof.
  revert s. induction l as [|c l IH]; intros s; simpl.
  - apply Matches_Eps.
  - rewrite Matches_Cat. setoid_rewrite Matches_Chr. setoid_rewrite IH. split.
    + by intros (? & ? & -> & -> & ->).
    + intros ->. by exists [c], l.
Qed.

Lemma Matches_Star_concat r s :
  Matches (Star r) s ↔ ∃ ss, Forall (Matches r) ss ∧ s = concat ss.
Proof.
  split.
  - intros H. remember (Star r) as r' eqn:Er.
    induction H as [| | | | | |r0 s1 s2 H1 _ H2 IH]; try done.
    + by exists [].
    + injection Er as ->. destruct IH as (ss & Hss & ->); [done|].
      exists (s1 :: ss). split; [by constructor | done].
  - intros (ss & Hss & ->). induction Hss; simpl; by constructor.
Qed.

Lemma Matches_Star_Cls p s : Matches (Star (Cls p)) s ↔ forallb p s = true.
Proof.
  rewrite Matches_Star_concat. split.
  - intros (ss & Hss & ->). induction Hss as [|w ss Hw _ IH]; [done|].
    apply Matches_Cls in Hw as (c & -> & Hc). simpl. by rewrite Hc.
  - intros H. exists (map (λ c, [c]) s). split.
    + induction s as [|c s IH]; simpl in *; [constructor|].
      apply andb_true_iff in H as [Hc Hs]. constructor; [|by apply IH].
      apply Matches_Cls. eauto.
    + clear H. induction s as [|c s IH]; simpl; [done | by rewrite <- IH].
Qed.

Lemma Matches_Plus_Cls p s :
  Matches (Plus (Cls p)) s ↔ s ≠ [] ∧ forallb p s = true.
Proof.
  unfold Plus. rewrite Matches_Cat. setoid_rewrite Matches_Cls.
  setoid_rewrite Matches_Star_Cls. split.
  - intros (? & s2 & -> & (c & -> & Hc) & Hs). simpl. by rewrite Hc.
  - intros [Hne H]. destruct s as [|c s]; [done|]. simpl in H.
    apply andb_true_iff in H as [Hc Hs]. exists [c], s. eauto.
Qed.

Lemma Matches_req_token s :
  Matches (Cat (Lit (lit " <")) (Cat (Plus (Cls is_ident)) (Lit (lit ">")))) s ↔
  ∃ i, well_ident i ∧ s = req_token i.
Proof.
  unfold req_token, well_ident. split.
  - intros (? & ? & -> & ->%Matches_Lit & H)%Matches_Cat.
    apply Matches_Cat in H as (i & ? & -> & Hi%Matches_Plus_Cls & ->%Matches_Lit).
    eauto.
  - intros (i & Hi & ->). apply MCat; [by apply Matches_Lit|].
    apply MCat; [by apply Matches_Plus_Cls | by apply Matches_Lit].
Qed.

Lemma Matches_opt_token s :
  Matches (Cat (Lit (lit " [<")) (Cat (Plus (Cls is_ident)) (Lit (lit ">]")))) s ↔
  ∃ i, well_ident i ∧ s = opt_token i.
Proof.
  unfold opt_token, well_ident. split.
  - intros (? & ? & -> & ->%Matches_Lit & H)%Matches_Cat.
    apply Matches_Cat in H as (i & ? & -> & Hi%Matches_Plus_Cls & ->%Matches_Lit).
    eauto.
  - intros (i & Hi & ->). apply MCat; [by apply Matches_Lit|].
    apply MCat; [by apply Matches_Plus_Cls | by apply Matches_Lit].
Qed.

Lemma Matches_tokens r (token : str → str) s :
  (∀ w, Matches r w ↔ ∃ i, well_ident i ∧ w = token i) →
  Matches (Star r) s ↔ ∃ ids, Forall well_ident ids ∧ s = concat (map token ids).
Proof.
  intros Hr. rewrite Matches_Star_concat. split.
  - intros (ss & Hss & ->). induction Hss as [|w ss Hw _ (ids & His & IH)].
    + by exists [].
    + apply Hr in Hw as (i & Hi & ->). exists (i :: ids). split; [by constructor|].
      simpl. by rewrite IH.
  - intros (ids & His & ->). exists (map token ids). split; [|done].
    induction His; simpl; constructor; [|done]. apply Hr. eauto.
Qed.

(** [usage_re] accepts exactly the usage strings of the grammar. *)
Lemma usage_re_spec s :
  fullmatch usage_re s = true ↔
  ∃ name reqs opts, well_named name ∧ Forall well_ident reqs ∧
    Forall well_ident opts ∧ s = usage_string name reqs opts.
Proof.
  rewrite fullmatch_spec. unfold usage_re, usage_string, well_named. split.
  - intros (? & ? & -> & ->%Matches_Chr & H)%Matches_Cat.
    apply Matches_Cat in H as (name & ? & -> & Hn%Matches_Plus_Cls & H).
    apply Matches_Cat in H as (? & ? & -> & Hr & Ho).
    apply (Matches_tokens _ req_token) in Hr as (reqs & ? & ->);
      [|apply Matches_req_token].
    apply (Matches_tokens _ opt_token) in Ho as (opts & ? & ->);
      [|apply Matches_opt_token].
    by exists name, reqs, opts.
  - intros (name & reqs & opts & Hn & Hr & Ho & ->).
    apply MCat; [by apply Matches_Chr|].
    apply MCat; [by apply Matches_Plus_Cls|].
    apply MCat.
    + apply (Matches_tokens _ req_token); [apply Matches_req_token | eauto].
    + apply (Matches_tokens _ opt_token); [apply Matches_opt_token | eauto].
Qed.

(** [command_re] accepts exactly the command-shaped lines. *)
Lemma command_re_spec s : fullmatch command_re s = true ↔ command_shaped s.
Proof.
  rewrite fullmatch_spec. unfold command_re, Opt, command_shaped, well_named.
  split.
  - intros (? & ? & -> & ->%Matches_Chr & H)%Matches_Cat.
    apply Matches_Cat in H as (name & rest & -> & Hn%Matches_Plus_Cls & H).
    exists name, rest. split; [done|]. split; [done|].
    apply Matches_Alt in H as [H| ->%Matches_Eps]; [right | by left].
    apply Matches_Cat in H as (? & t & -> & ->%Matches_Chr & Ht%Matches_Star_Cls).
    eauto.
  - intros (name & rest & -> & Hn & Hrest).
    apply (MCat _ _ [SLASH]); [by apply Matches_Chr|].
    apply MCat; [by apply Matches_Plus_Cls|].
    destruct Hrest as [->|(t & -> & ?)]; [apply MAltR; constructor|].
    apply MAltL, (MCat _ _ [SPACE]); [by apply Matches_Chr|].
    by apply Matches_Star_Cls.
Qed.

End languages.

(** ** Facts about the string functions *)

Section strings.

Implicit Types (s w : str) (c : char) (p : char → bool).

Lemma forallb_Forall p s : forallb p s = true ↔ Forall (λ c, p c = true) s.
Proof.
  induction s as [|c s IH]; simpl.
  - split; [constructor | done].
  - rewrite andb_true_iff, IH. split; [intros [??]; by constructor | by inversion 1].
Qed.

Lemma forallb_impl p q s :
  (∀ c, p c = true → q c = true) → forallb p s = true → forallb q s = true.
Proof.
  intros Hpq. rewrite !forallb_Forall. intros H.
  eapply Forall_impl; [exact H | exact Hpq].
Qed.

Lemma forallb_app_true p s1 s2 :
  forallb p (s1 ++ s2) = true ↔ forallb p s1 = true ∧ forallb p s2 = true.
Proof. by rewrite forallb_app, andb_true_iff. Qed.

Lemma is_lower_ident c : is_lower c = true → is_ident c = true.
Proof. unfold is_ident. by intros ->. Qed.

Lemma is_ident_not_space c : is_ident c = true → is_space c = false.
Proof. unfold is_ident, is_lower, is_space, UNDERSCORE. lia. Qed.

Lemma is_lower_not_space c : is_lower c = true → is_space c = false.
Proof. intros ?. by apply is_ident_not_space, is_lower_ident. Qed.

Lemma not_space_SPACE c : is_space c = false → (c =? SPACE) = false.
Proof. unfold is_space, SPACE. lia. Qed.

Lemma is_linebreak_space c : is_linebreak c = true → is_space c = true.
Proof. unfold is_linebreak, is_space. lia. Qed.

(** [span] stops at the first character outside the class. *)
Lemma span_app p w s :
  forallb p w = true → (∀ c s', s = c :: s' → p c = false) →
  span p (w ++ s) = (w, s).
Proof.
  intros Hw Hs. induction w as [|c w IH]; simpl in *.
  - destruct s as [|c s]; [done|]. simpl. by rewrite (Hs c s).
  - apply andb_true_iff in Hw as [-> Hw]. by rewrite IH.
Qed.

Lemma span_eq p s : (span p s).1 ++ (span p s).2 = s.
Proof.
  induction s as [|c s IH]; simpl; [done|].
  destruct (p c); [|done]. destruct (span p s); simpl in *. by rewrite IH.
Qed.

Lemma span_fst p s : forallb p (span p s).1 = true.
Proof.
  induction s as [|c s IH]; simpl; [done|].
  destruct (p c) eqn:Ec; [|done]. destruct (span p s); simpl in *. by rewrite Ec.
Qed.

Lemma span_snd p s c s' : (span p s).2 = c :: s' → p c = false.
Proof.
  induction s as [|c0 s IH]; simpl; [done|].
  destruct (p c0) eqn:Ec.
  - destruct (span p s); simpl in *. done.
  - simpl. by intros [= <- _].
Qed.

Lemma lstrip_by_cons_false p c s : p c = false → lstrip_by p (c :: s) = c :: s.
Proof. unfold lstrip_by. simpl. by intros ->. Qed.

Lemma lstrip_by_cons_true p c s : p c = true → lstrip_by p (c :: s) = lstrip_by p s.
Proof. unfold lstrip_by. simpl. intros ->. by destruct (span p s). Qed.

Lemma lstrip_by_nil_iff p s : lstrip_by p s = [] ↔ forallb p s = true.
Proof.
  induction s as [|c s IH]; [done|]. destruct (p c) eqn:Ec.
  - rewrite lstrip_by_cons_true by done. simpl. by rewrite Ec.
  - rewrite lstrip_by_cons_false by done. simpl. by rewrite Ec.
Qed.

Lemma lstrip_by_suffix p s : ∃ w, s = w ++ lstrip_by p s ∧ forallb p w = true.
Proof.
  exists (span p s).1. split; [symmetry; apply span_eq | apply span_fst].
Qed.

(** A word, that is a non-empty run without whitespace followed by the end
    of the string or by whitespace, is cut off as it stands. *)
Lemma split_word w s :
  w ≠ [] → forallb (λ c, negb (is_space c)) w = true → word_end s →
  split (w ++ s) = w :: split s.
Proof.
  intros Hne Hw Hs. induction w as [|c w IH]; [done|]. simpl in Hw.
  apply andb_true_iff in Hw as [Hc%negb_true_iff Hw].
  change ((c :: w) ++ s) with (c :: (w ++ s)). simpl split at 1. rewrite Hc.
  destruct w as [|c' w].
  - simpl. destruct s as [|c' s]; [done|]. by rewrite (Hs c' s).
  - simpl in Hw. apply andb_true_iff in Hw as [Hc'%negb_true_iff Hw'].
    change ((c' :: w) ++ s) with (c' :: (w ++ s)) in *. cbv iota. rewrite Hc'.
    rewrite IH; [done..|]. simpl. by rewrite Hc', Hw'.
Qed.

Lemma split_max_word n w s :
  w ≠ [] → forallb (λ c, negb (is_space c)) w = true → word_end s →
  split_max (S n) (w ++ s) = w :: split_max n s.
Proof.
  intros Hne Hw Hs. destruct w as [|c w]; [done|]. simpl in Hw.
  apply andb_true_iff in Hw as [Hc Hw].
  change ((c :: w) ++ s) with (c :: (w ++ s)). simpl split_max at 1.
  rewrite lstrip_by_cons_false by by apply negb_true_iff.
  change (c :: (w ++ s)) with ((c :: w) ++ s). rewrite span_app; [done| |].
  - simpl. by rewrite Hc, Hw.
  - intros c' s' ->. by rewrite (Hs c' s').
Qed.

Lemma split_max_0 s :
  split_max 0 s = match lstrip s with [] => [] | _ => [lstrip s] end.
Proof. unfold lstrip, split_max. by destruct (lstrip_by is_space s). Qed.

Lemma split_max_length n s : (length (split_max n s) ≤ S n)%nat.
Proof.
  revert s. induction n as [|n IH]; intros s.
  - rewrite split_max_0. destruct (lstrip s); simpl; lia.
  - simpl. destruct (lstrip_by is_space s) as [|c r]; [simpl; lia|].
    destruct (span _ (c :: r)) as [w rest]. simpl. specialize (IH rest). lia.
Qed.

(** A string without line boundary is a line of its own. *)
Lemma splitlines_single_line s :
  s ≠ [] → single_line s → splitlines s = [s].
Proof.
  unfold single_line. intros Hne Hs. induction s as [|c s IH]; [done|].
  simpl in *. apply andb_true_iff in Hs as [Hc%negb_true_iff Hs]. rewrite Hc.
  destruct s as [|c' s]; [done|]. by rewrite IH.
Qed.

Lemma splitlines_nonempty s : s ≠ [] → splitlines s ≠ [].
Proof.
  destruct s as [|c s]; [done|]. intros _. simpl.
  destruct (is_linebreak c); [done|]. by destruct (splitlines s).
Qed.

(** [split] without bound is [split_max] with a bound that is never
    reached. *)
Lemma split_lstrip s : split s = split (lstrip s).
Proof.
  unfold lstrip. induction s as [|c s IH]; [done|].
  destruct (is_space c) eqn:Ec.
  - rewrite lstrip_by_cons_true by done. simpl. by rewrite Ec.
  - by rewrite lstrip_by_cons_false.
Qed.

Lemma split_max_unbounded n s :
  (length s ≤ n)%nat → split_max n s = split s.
Proof.
  revert s. induction n as [|n IH]; intros s Hlen.
  - destruct s; [done | simpl in Hlen; lia].
  - rewrite split_lstrip. cbn [split_max]. unfold lstrip.
    destruct (lstrip_by_suffix is_space s) as (w0 & E & _).
    destruct (lstrip_by is_space s) as [|c r] eqn:Er; [done|].
    assert (is_space c = false) as Hc.
    { eapply (span_snd is_space s). exact Er. }
    pose proof (span_eq (λ c, negb (is_space c)) (c :: r)) as Hsp.
    pose proof (span_fst (λ c, negb (is_space c)) (c :: r)) as Hw.
    pose proof (span_snd (λ c, negb (is_space c)) (c :: r)) as Hrest.
    destruct (span _ (c :: r)) as [w rest] eqn:Es. cbn [fst snd] in *.
    assert (w ≠ []) as Hne.
    { intros ->. simpl in Es. rewrite Hc in Es. simpl in Es.
      by destruct (span _ r). }
    rewrite <- Hsp. rewrite split_word; [|done|done|].
    + f_equal. apply IH. apply (f_equal length) in E, Hsp.
      rewrite length_app in E, Hsp. destruct w; [done|].
      simpl in *. lia.
    + intros c' s' ->. apply negb_false_iff. by eapply Hrest.
Qed.

(** The models agree with the interpreter on sample strings. *)
Example split_sample :
  split (lit " a  b c ") = [lit "a"; lit "b"; lit "c"]
  ∧ split_max 1 (lit "a b  ") = [lit "a"; lit "b  "]
  ∧ split_max 1 (lit " a  b c ") = [lit "a"; lit "b c "]
  ∧ split_max 2 (lit "a b ") = [lit "a"; lit "b"]
  ∧ split_max 0 (lit " a b ") = [lit "a b "]
  ∧ split_max 0 (lit "  ") = [].
Proof. vm_compute. done. Qed.

Example splitlines_sample :
  splitlines (lit "a" ++ [CR; LF] ++ lit "b" ++ [LF; LF] ++ lit "c" ++ [LF])
  = [lit "a"; lit "b"; []; lit "c"]
  ∧ splitlines [LF] = [[]] ∧ splitlines [] = []
  ∧ splitlines (lit "a" ++ [CR] ++ lit "b") = [lit "a"; lit "b"].
Proof. vm_compute. done. Qed.

Example count_strip_sample :
  count (lit " <") (lit " < <") = 2%nat ∧ count (lit "aa") (lit "aaa") = 1%nat
  ∧ strip (lit "[<>]") (lit "[<a_b>]") = lit "a_b"
  ∧ strip (lit "[<>]") (lit "<<a>>]") = lit "a".
Proof. vm_compute. done. Qed.

Example fullmatch_sample :
  fullmatch command_re (lit "/join #x") = true
  ∧ fullmatch command_re (lit "/join") = true
  ∧ fullmatch command_re (lit "/Join") = false
  ∧ fullmatch command_re (lit "/") = false
  ∧ fullmatch command_re (lit "/join" ++ [LF]) = false
  ∧ fullmatch usage_re (lit "/msg <nick> <message>") = true
  ∧ fullmatch usage_re (lit "/part [<channel>]") = true
  ∧ fullmatch usage_re (lit "/x [<a>] <b>") = false
  ∧ fullmatch usage_re (lit "/x <a>  <b>") = false.
Proof. vm_compute. done. Qed.

End strings.

(** ** Counting in usage strings *)

Section counting.

Implicit Types (s w : str) (c : char).

Lemma count_space_cons c s :
  count (lit " ") (c :: s)
  = ((if (c =? SPACE)%N then 1 else 0) + count (lit " ") s)%nat.
Proof.
  unfold count. change (lit " ") with [SPACE].
  cbn [count_from startswith length Nat.sub].
  rewrite andb_true_r, (N.eqb_sym SPACE c). by destruct (c =? SPACE).
Qed.

Lemma count_lt_cons c s :
  count (lit " <") (c :: s)
  = ((if (c =? SPACE)%N && startswith (lit "<") s then 1 else 0)
     + count (lit " <") s)%nat.
Proof.
  unfold count. change (lit " <") with [SPACE; LT]. change (lit "<") with [LT].
  cbn [count_from startswith length Nat.sub].
  rewrite (N.eqb_sym SPACE c). destruct (c =? SPACE); [|done].
  destruct s as [|c' s]; [done|]. cbn [count_from startswith andb].
  rewrite andb_true_r.
  destruct (LT =? c') eqn:E; [|done]. apply N.eqb_eq in E as <-. done.
Qed.

Lemma count_space_app s1 s2 :
  count (lit " ") (s1 ++ s2) = (count (lit " ") s1 + count (lit " ") s2)%nat.
Proof.
  induction s1 as [|c s1 IH]; [done|]. simpl app.
  rewrite !count_space_cons, IH. lia.
Qed.

Lemma count_space_word w : no_SPACE w → count (lit " ") w = 0%nat.
Proof.
  unfold no_SPACE. induction w as [|c w IH]; [done|]. simpl.
  intros [Hc%negb_true_iff Hw]%andb_true_iff.
  by rewrite count_space_cons, Hc, IH.
Qed.

Lemma count_lt_word_app w s :
  no_SPACE w → count (lit " <") (w ++ s) = count (lit " <") s.
Proof.
  unfold no_SPACE. induction w as [|c w IH]; [done|]. simpl.
  intros [Hc%negb_true_iff Hw]%andb_true_iff.
  by rewrite count_lt_cons, Hc, IH.
Qed.

Lemma ident_no_SPACE i : forallb is_ident i = true → no_SPACE i.
Proof.
  apply forallb_impl. intros c Hc%is_ident_not_space%not_space_SPACE.
  by rewrite Hc.
Qed.

Lemma lower_no_SPACE name : forallb is_lower name = true → no_SPACE name.
Proof.
  intros H. apply ident_no_SPACE. revert H. apply forallb_impl, is_lower_ident.
Qed.

Lemma no_SPACE_app w1 w2 : no_SPACE w1 → no_SPACE w2 → no_SPACE (w1 ++ w2).
Proof. unfold no_SPACE. intros. by apply forallb_app_true. Qed.

Lemma count_space_req_token i s :
  well_ident i →
  count (lit " ") (req_token i ++ s) = S (count (lit " ") s).
Proof.
  intros [_ Hi%ident_no_SPACE]. unfold req_token.
  rewrite !count_space_app, (count_space_word i) by done. done.
Qed.

Lemma count_space_opt_token i s :
  well_ident i →
  count (lit " ") (opt_token i ++ s) = S (count (lit " ") s).
Proof.
  intros [_ Hi%ident_no_SPACE]. unfold opt_token.
  rewrite !count_space_app, (count_space_word i) by done. done.
Qed.

Lemma count_lt_req_token i s :
  well_ident i →
  count (lit " <") (req_token i ++ s) = S (count (lit " <") s).
Proof.
  intros [_ Hi%ident_no_SPACE]. unfold req_token.
  change (lit " <") with [SPACE; LT] at 2.
  change (([SPACE; LT] ++ i ++ lit ">") ++ s)
    with (SPACE :: (LT :: i ++ lit ">") ++ s).
  rewrite count_lt_cons. simpl andb. cbv iota.
  rewrite count_lt_word_app; [done|].
  apply (no_SPACE_app [LT]); [done|]. by apply no_SPACE_app.
Qed.

Lemma count_lt_opt_token i s :
  well_ident i →
  count (lit " <") (opt_token i ++ s) = count (lit " <") s.
Proof.
  intros [_ Hi%ident_no_SPACE]. unfold opt_token.
  change (lit " [<") with [SPACE; LBRACKET; LT].
  change (([SPACE; LBRACKET; LT] ++ i ++ lit ">]") ++ s)
    with (SPACE :: ([LBRACKET; LT] ++ i ++ lit ">]") ++ s).
  rewrite count_lt_cons. simpl andb. cbv iota.
  rewrite count_lt_word_app; [done|].
  apply (no_SPACE_app [LBRACKET; LT]); [done|]. by apply no_SPACE_app.
Qed.

Lemma count_space_tokens (token : str → str) ids s :
  (∀ i s', well_ident i →
     count (lit " ") (token i ++ s') = S (count (lit " ") s')) →
  Forall well_ident ids →
  count (lit " ") (concat (map token ids) ++ s)
  = (length ids + count (lit " ") s)%nat.
Proof.
  intros Htok Hids. induction Hids as [|i ids Hi _ IH]; [done|].
  simpl. rewrite <- app_assoc, Htok, IH by done. done.
Qed.

(** In a usage string of the grammar, [usage.count(" ")] is the number of
    declared parameters and [usage.count(" <")] the number of required
    ones. *)
Lemma count_space_usage name reqs opts :
  well_named name → Forall well_ident reqs → Forall well_ident opts →
  count (lit " ") (usage_string name reqs opts)
  = (length reqs + length opts)%nat.
Proof.
  intros [_ Hn%lower_no_SPACE] Hr Ho. unfold usage_string.
  rewrite count_space_app, (count_space_app name).
  rewrite (count_space_word name) by done.
  rewrite (count_space_tokens req_token) by (done || apply count_space_req_token).
  rewrite <- (app_nil_r (concat (map opt_token opts))).
  rewrite (count_space_tokens opt_token) by (done || apply count_space_opt_token).
  change (count (lit " ") (lit "/")) with 0%nat.
  change (count (lit " ") []) with 0%nat. lia.
Qed.

Lemma count_lt_usage name reqs opts :
  well_named name → Forall well_ident reqs → Forall well_ident opts →
  count (lit " <") (usage_string name reqs opts) = length reqs.
Proof.
  intros [_ Hn%lower_no_SPACE] Hr Ho. unfold usage_string.
  rewrite (count_lt_word_app (lit "/")) by done.
  rewrite count_lt_word_app by done.
  induction Hr as [|i reqs Hi _ IH]; cbn [map concat length].
  - rewrite app_nil_l. induction Ho as [|i opts Hi _ IH]; [done|].
    cbn [map concat]. by rewrite count_lt_opt_token.
  - by rewrite <- app_assoc, count_lt_req_token, IH.
Qed.

End counting.

(** ** Laws of the computations *)

Section computations.

Context {A B : Type}.
Implicit Types (f : A → M B) (t : list event).

Lemma bind_val t (a : A) f : mbind f (t, Val a) = (t ++ (f a).1, (f a).2).
Proof. unfold mbind, M_bind, bind. by destruct (f a). Qed.

Lemma bind_ret (a : A) f : mbind f (ret a) = f a.
Proof. unfold ret. rewrite bind_val. by destruct (f a). Qed.

Lemma bind_exc t e f : mbind f (t, Exc e) = (t, Exc e).
Proof. done. Qed.

End computations.

Lemma bind_emit {B} ev (f : unit → M B) :
  mbind f (emit ev) = (ev :: (f ()).1, (f ()).2).
Proof. unfold emit. by rewrite bind_val. Qed.

(** ** The dispatcher *)

Section dispatcher.

Implicit Types (s w : str) (c : char) (view : View) (answer : nat → bool).
Implicit Types (cmds : gmap str (str * handler)).

(** A command-shaped line starts with its command word, slash included. *)
Lemma command_word s :
  fullmatch command_re s = true →
  ∃ name rest, s = (SLASH :: name) ++ rest ∧ well_named name ∧ word_end rest ∧
    split s = (SLASH :: name) :: split rest ∧
    ∀ n, split_max (S n) s = (SLASH :: name) :: split_max n rest.
Proof.
  intros (name & rest & -> & Hn & Hrest)%command_re_spec.
  assert (word_end rest) as Hend.
  { intros c s' ->. by destruct Hrest as [|(t & [= -> _] & _)]. }
  assert (forallb (λ c, negb (is_space c)) (SLASH :: name) = true) as Hw.
  { simpl. destruct Hn as [_ Hn]. revert Hn. apply forallb_impl.
    intros c Hc%is_lower_not_space. by rewrite Hc. }
  exists name, rest. split_and!; [done..| |].
  - by apply (split_word (SLASH :: name)).
  - intros n. by apply (split_max_word n (SLASH :: name)).
Qed.

Lemma handle_command_command cmds answer view s :
  fullmatch command_re s = true →
  handle_command cmds answer view s = command_path cmds view s.
Proof.
  intros H. unfold handle_command. rewrite H. by destruct s.
Qed.

Lemma handle_command_plain cmds answer view s :
  s ≠ [] → fullmatch command_re s = false →
  handle_command cmds answer view s = plain_text_path answer view s.
Proof.
  intros Hne H. unfold handle_command. rewrite H. by destruct s.
Qed.

End dispatcher.

(** ** Unknown commands *)

Section unknown_command.

Implicit Types (s : str) (view : View) (answer : nat → bool).
Implicit Types (cmds : gmap str (str * handler)).



End unknown_command.

(** ** Plain text *)

Section plain_text.

Implicit Types (s : str) (view : View) (answer : nat → bool).
Implicit Types (cmds : gmap str (str * handler)) (lines : list str).

Lemma _send_privmsg_event view message :
  _send_privmsg view message = emit (send_event view message).
Proof. by destruct view. Qed.

Lemma for_each_send view lines :
  for_each lines (λ line, _send_privmsg view line)
  = (map (send_event view) lines, Val ()).
Proof.
  induction lines as [|l lines IH]; [done|]. cbn [for_each map].
  by rewrite _send_privmsg_event, bind_emit, IH.
Qed.

(** What the confirmation and the loop do, case by case. *)
Lemma send_lines_spec answer view lines :
  send_lines answer view lines =
  if (3 <? length lines)%nat then
    if answer (length lines)
    then (messagebox_askyesno (length lines) :: map (send_event view) lines,
          Val true)
    else ([messagebox_askyesno (length lines)], Val false)
  else (map (send_event view) lines, Val true).
Proof.
  unfold send_lines, askyesno. destruct (3 <? length lines)%nat.
  - rewrite bind_emit. cbn [ret fst snd]. rewrite bind_val.
    destruct (answer (length lines)); cbn [negb]; [|done].
    rewrite for_each_send, bind_val. cbn [fst snd ret]. by rewrite app_nil_r.
  - rewrite bind_ret. cbn [negb]. rewrite for_each_send, bind_val.
    cbn [fst snd ret]. by rewrite app_nil_r.
Qed.

Lemma core_calls_sends target lines :
  core_calls (map (core_send_privmsg target) lines)
  = map (core_send_privmsg target) lines.
Proof. induction lines as [|l lines IH]; [done|]. simpl. by rewrite IH. Qed.

Lemma confirmations_sends view lines :
  confirmations (map (send_event view) lines) = [].
Proof. induction lines as [|l lines IH]; [done|]. by destruct view. Qed.

Lemma send_event_target view target message :
  view = ChannelView target ∨ view = PMView target →
  send_event view message = core_send_privmsg target message.
Proof. by intros [-> | ->]. Qed.

Lemma map_send_event_target view target lines :
  view = ChannelView target ∨ view = PMView target →
  map (send_event view) lines = map (core_send_privmsg target) lines.
Proof.
  intros Hv. apply map_ext. intros l. by apply send_event_target.
Qed.

Lemma not_command_double_slash s :
  fullmatch command_re (SLASH :: SLASH :: s) = false.
Proof.
  apply not_true_is_false.
  intros (name & rest & E & [Hne Hn] & _)%command_re_spec.
  destruct name as [|c name]; [done|]. injection E as <- _. done.
Qed.

Lemma not_command_no_slash s :
  startswith (lit "/") s = false → fullmatch command_re s = false.
Proof.
  intros Hs. apply not_true_is_false.
  intros (name & rest & -> & _)%command_re_spec. done.
Qed.

(** C6. A line that starts with two slashes never reaches the registry:
    whatever the registry, it is handled as the plain text obtained by
    removing exactly one of the two slashes, so that "//like this" is sent
    as "/like this". *)
Theorem C6_double_slash_escape cmds answer view s :
  fullmatch command_re (lit "//" ++ s) = false
  ∧ handle_command cmds answer view (lit "//" ++ s)
    = send_lines answer view (splitlines (lit "/" ++ s))
  ∧ handle_command cmds answer (ChannelView (lit "#c")) (lit "//like this")
    = ([core_send_privmsg (lit "#c") (lit "/like this")], Val true).
Proof.
  split_and!.
  - apply not_command_double_slash.
  - rewrite handle_command_plain; [done..|apply not_command_double_slash].
  - rewrite handle_command_plain; [done..|apply not_command_double_slash].
Qed.

Lemma handle_command_lines cmds answer view s :
  s ≠ [] → fullmatch command_re s = false →
  handle_command cmds answer view s = send_lines answer view (lines_of s).
Proof. intros. by rewrite handle_command_plain. Qed.

Lemma lines_of_nonempty s : s ≠ [] → lines_of s ≠ [].
Proof.
  intros Hs. unfold lines_of. destruct (startswith (lit "//") s) eqn:E.
  - apply splitlines_nonempty. destruct s as [|c [|c' s]]; [done| |done].
    cbn [startswith lit map list_ascii_of_string] in E.
    by rewrite andb_false_r in E.
  - by apply splitlines_nonempty.
Qed.

(** C3. For a plain-text entry, the dialog is opened exactly once when the
    entry has more than 3 lines and not at all otherwise. When the user
    declines, [handle_command] returns [False] and nothing is sent. When
    the user accepts, or when there are at most 3 lines, [handle_command]
    returns [True] and the backend calls are one [send_privmsg] per line, in
    the order of the lines, to the target of the channel or direct-message
    view. *)
Theorem C3_multiline_confirmation cmds answer view s :
  s ≠ [] → fullmatch command_re s = false →
  let lines := lines_of s in
  let n := length lines in
  let run := handle_command cmds answer view s in
  confirmations run.1 = (if (3 <? n)%nat then [messagebox_askyesno n] else [])
  ∧ ((3 < n)%nat → answer n = false →
       run.2 = Val false ∧ sends run.1 = [] ∧ core_calls run.1 = [])
  ∧ ((n ≤ 3)%nat ∨ answer n = true →
       run.2 = Val true ∧
       ∀ target, view = ChannelView target ∨ view = PMView target →
         core_calls run.1 = map (core_send_privmsg target) lines).
Proof.
  intros Hne Hm lines n run. subst run.
  rewrite handle_command_lines, send_lines_spec by done. fold lines n.
  destruct (3 <? n)%nat eqn:Hn.
  - apply Nat.ltb_lt in Hn. destruct (answer n) eqn:Ha; cbn [fst snd].
    + split_and!; [|done|].
      * cbn. by rewrite confirmations_sends.
      * intros _. split; [done|]. intros target Hv.
        rewrite (map_send_event_target view target) by done.
        cbn. apply core_calls_sends.
    + split_and!; [done|done|]. intros [?|?]; [lia|done].
  - apply Nat.ltb_ge in Hn. cbn [fst snd]. split_and!.
    + apply confirmations_sends.
    + lia.
    + intros _. split; [done|]. intros target Hv.
      rewrite (map_send_event_target view target) by done.
      apply core_calls_sends.
Qed.

Lemma C3_multiline_confirmation_witness :
  let s := lit "a" ++ [LF] ++ lit "b" ++ [LF] ++ lit "c" ++ [LF] ++ lit "d" in
  let run := handle_command default_commands (λ _, true) (ChannelView (lit "#x")) s in
  confirmations run.1 = [messagebox_askyesno 4]
  ∧ run.2 = Val true
  ∧ core_calls run.1
    = map (core_send_privmsg (lit "#x")) [lit "a"; lit "b"; lit "c"; lit "d"].
Proof.
  intros s run.
  destruct (C3_multiline_confirmation default_commands (λ _, true)
              (ChannelView (lit "#x")) s) as (Hc & _ & Ha);
    [vm_compute; discriminate | vm_compute; reflexivity |].
  split; [exact Hc|]. destruct Ha as [Hr Hs]; [right; reflexivity|].
  split; [exact Hr|]. apply Hs. left; reflexivity.
Defined.

Lemma view_messages_replicate lines :
  view_messages (map (send_event OtherView) lines)
  = replicate (length lines) (view_add_message (lit "*") not_sendable).
Proof.
  induction lines as [|l lines IH]; [done|].
  change (view_messages (map (send_event OtherView) (l :: lines)))
    with (view_add_message (lit "*") not_sendable
          :: view_messages (map (send_event OtherView) lines)).
  by rewrite IH.
Qed.

Lemma core_calls_other lines :
  core_calls (map (send_event OtherView) lines) = [].
Proof. induction lines as [|l lines IH]; [done|]. done. Qed.

(** C1, as the code has it. For a plain-text entry in a view without send
    target, [handle_command] makes no call on the backend. Unless the entry
    has more than 3 lines and the user declines the confirmation (then it
    returns [False] and adds no message), it adds the not-sendable message
    to the view once for each line of the entry, at least once, and returns
    [True]. *)
Theorem C1_not_sendable_per_line cmds answer s :
  s ≠ [] → fullmatch command_re s = false →
  let lines := lines_of s in
  let n := length lines in
  let run := handle_command cmds answer OtherView s in
  core_calls run.1 = [] ∧ sends run.1 = [] ∧ (1 ≤ n)%nat
  ∧ if (3 <? n)%nat && negb (answer n)
    then run.2 = Val false ∧ view_messages run.1 = []
    else run.2 = Val true ∧
         view_messages run.1
         = replicate n (view_add_message (lit "*") not_sendable).
Proof.
  intros Hne Hm lines n run. subst run.
  assert (1 ≤ n)%nat as Hn1.
  { subst n lines. pose proof (lines_of_nonempty s Hne).
    destruct (lines_of s); [done | simpl; lia]. }
  assert (sends (map (send_event OtherView) lines) = []) as Hsends.
  { clear. induction lines as [|l lines IH]; done. }
  rewrite handle_command_lines, send_lines_spec by done. fold lines n.
  destruct (3 <? n)%nat eqn:Hn; [destruct (answer n) eqn:Ha|]; cbn [fst snd andb negb].
  - set (t := map (send_event OtherView) lines) in *.
    change (core_calls (messagebox_askyesno n :: t)) with (core_calls t).
    change (sends (messagebox_askyesno n :: t)) with (sends t).
    change (view_messages (messagebox_askyesno n :: t)) with (view_messages t).
    subst t. by rewrite core_calls_other, Hsends, view_messages_replicate.
  - done.
  - by rewrite core_calls_other, Hsends, view_messages_replicate.
Qed.

Lemma C1_not_sendable_per_line_witness :
  let run := handle_command default_commands (λ _, true) OtherView (lit "hi there") in
  core_calls run.1 = [] ∧ run.2 = Val true
  ∧ view_messages run.1 = [view_add_message (lit "*") not_sendable].
Proof.
  intros run.
  destruct (C1_not_sendable_per_line default_commands (λ _, true) (lit "hi there"))
    as (Hc & _ & _ & Hr & Hv);
    [vm_compute; discriminate | vm_compute; reflexivity |].
  split; [exact Hc|]. split; [exact Hr | exact Hv].
Defined.

(** The claim C1 as stated fails: in a view without send target, the
    two-line entry "hi", "there" makes [handle_command] return [True], not
    [False], and adds the not-sendable message twice, not once. *)
Lemma C1_counterexample :
  let s := lit "hi" ++ [LF] ++ lit "there" in
  fullmatch command_re s = false
  ∧ handle_command default_commands (λ _, true) OtherView s
    = ([view_add_message (lit "*") not_sendable;
        view_add_message (lit "*") not_sendable], Val true)
  ∧ (handle_command default_commands (λ _, true) OtherView s).2 ≠ Val false
  ∧ view_messages (handle_command default_commands (λ _, true) OtherView s).1
    ≠ [view_add_message (lit "*") not_sendable].
Proof. vm_compute. split_and!; done. Qed.

(** C10. For a non-empty string without line boundary, in a channel or
    direct-message view, the escaped string is never command-shaped,
    whether or not the string starts with a slash, and dispatching it sends
    exactly the string itself, once, whatever the registry. *)
Theorem C10_escape_roundtrip cmds answer view target s :
  s ≠ [] → single_line s →
  view = ChannelView target ∨ view = PMView target →
  fullmatch command_re (escape_message s) = false
  ∧ handle_command cmds answer view (escape_message s)
    = ([core_send_privmsg target s], Val true).
Proof.
  intros Hne Hs Hv.
  assert (fullmatch command_re (escape_message s) = false
          ∧ lines_of (escape_message s) = [s]) as [Hm Hl].
  { unfold escape_message. destruct (startswith (lit "/") s) eqn:E.
    - destruct s as [|c s]; [done|].
      cbn in E. apply andb_true_iff in E as [<-%N.eqb_eq _].
      split; [apply not_command_double_slash|].
      by apply splitlines_single_line.
    - split; [by apply not_command_no_slash|]. unfold lines_of.
      assert (startswith (lit "//") s = false) as ->.
      { destruct s as [|c s]; [done|]. cbn in *.
        rewrite andb_true_r in E. by rewrite E. }
      by apply splitlines_single_line. }
  split; [done|].
  assert (escape_message s ≠ []) as Hne'.
  { unfold escape_message. by destruct (startswith _ s). }
  rewrite handle_command_lines, send_lines_spec, Hl by done.
  cbn. by rewrite (send_event_target view target).
Qed.

Lemma C10_escape_roundtrip_witness :
  handle_command default_commands (λ _, false) (PMView (lit "bob"))
    (escape_message (lit "/join #x"))
  = ([core_send_privmsg (lit "bob") (lit "/join #x")], Val true).
Proof.
  apply (C10_escape_roundtrip default_commands (λ _, false) (PMView (lit "bob"))
           (lit "bob") (lit "/join #x"));
    [vm_compute; discriminate | vm_compute; reflexivity | right; reflexivity].
Defined.

End plain_text.

(** ** Classification of the entry *)

Section classification.

Implicit Types (s : str) (view : View) (answer : nat → bool).
Implicit Types (cmds : gmap str (str * handler)).

(** C2, as the code has it. A non-empty entry takes the command path, with
    its lookup in the registry, exactly when it is a slash, one or more
    lowercase letters, and then nothing or a space character (U+0020)
    followed by any characters other than a line feed; every other
    non-empty entry takes the plain-text path. *)
Theorem C2_command_path_iff_shaped cmds answer view s :
  s ≠ [] →
  (command_shaped s →
     handle_command cmds answer view s = command_path cmds view s)
  ∧ (¬ command_shaped s →
     handle_command cmds answer view s = plain_text_path answer view s).
Proof.
  intros Hne. split; intros Hs.
  - apply handle_command_command. by apply command_re_spec.
  - apply handle_command_plain; [done|]. apply not_true_is_false.
    by intros ?%command_re_spec.
Qed.

Lemma C2_command_path_iff_shaped_witness :
  handle_command default_commands (λ _, true) (ChannelView (lit "#x")) (lit "/join #y")
  = command_path default_commands (ChannelView (lit "#x")) (lit "/join #y").
Proof.
  apply (C2_command_path_iff_shaped default_commands (λ _, true)
           (ChannelView (lit "#x")) (lit "/join #y")); [vm_compute; discriminate|].
  apply command_re_spec. vm_compute. reflexivity.
Defined.

(** The claim C2 as stated fails: "/join", a tab, "#y" is a slash, letters,
    a whitespace character and more text, yet it is not looked up as a
    command (which would join "#y") but sent to the channel as it stands. *)
Lemma C2_counterexample :
  spec_command_shaped (lit "/join" ++ [TAB] ++ lit "#y")
  ∧ handle_command default_commands (λ _, true) (ChannelView (lit "#x"))
      (lit "/join" ++ [TAB] ++ lit "#y")
    = ([core_send_privmsg (lit "#x") (lit "/join" ++ [TAB] ++ lit "#y")], Val true)
  ∧ command_path default_commands (ChannelView (lit "#x"))
      (lit "/join" ++ [TAB] ++ lit "#y")
    = ([core_join_channel (lit "#y")], Val true)
  ∧ handle_command default_commands (λ _, true) (ChannelView (lit "#x"))
      (lit "/join" ++ [TAB] ++ lit "#y")
    ≠ command_path default_commands (ChannelView (lit "#x"))
        (lit "/join" ++ [TAB] ++ lit "#y").
Proof.
  split.
  - exists (lit "join"), ([TAB] ++ lit "#y"). split_and!; [done..|].
    right. by exists TAB, (lit "#y").
  - vm_compute. split_and!; done.
Qed.

End classification.

(** ** Arguments and arity *)

Section arity.

Implicit Types (s : str) (view : View) (answer : nat → bool).
Implicit Types (cmds : gmap str (str * handler)).

Lemma command_args_length usage s :
  (length (command_args usage s) ≤ Nat.max (count (lit " ") usage) 1)%nat.
Proof.
  unfold command_args.
  pose proof (split_max_length (Nat.max (count (lit " ") usage) 1) s) as H.
  destruct (split_max _ s); simpl in *; lia.
Qed.

Lemma split_blank w : only_whitespace w → split w = [].
Proof.
  unfold only_whitespace. induction w as [|c w IH]; [done|]. cbn [forallb].
  intros [Hc Hw]%andb_true_iff. cbn [split]. rewrite Hc. by apply IH.
Qed.

Lemma split_skip_blank w s : only_whitespace w → split (w ++ s) = split s.
Proof.
  unfold only_whitespace. induction w as [|c w IH]; [done|]. cbn [forallb].
  intros [Hc Hw]%andb_true_iff. change ((c :: w) ++ s) with (c :: (w ++ s)).
  cbn [split]. rewrite Hc. by apply IH.
Qed.

Lemma word_end_prefix pre s : word_end (pre ++ s) → pre ≠ [] → word_end pre.
Proof.
  intros H Hne. destruct pre as [|c pre]; [done|].
  intros c' s' [= <- <-]. by apply (H c (pre ++ s)).
Qed.

Lemma word_end_reverse_app pre x :
  pre ≠ [] → word_end (reverse pre) → word_end (reverse (x ++ pre)).
Proof.
  intros Hne H. rewrite reverse_app.
  destruct (reverse pre) as [|c r] eqn:E.
  - apply (f_equal reverse) in E. rewrite reverse_involutive in E. done.
  - intros c' s' [= <- _]. by apply (H c r).
Qed.

(** What [split_max n] yields: either the string has at most [n] words and
    every word is a piece, as with [split]; or the first [n] words are
    pieces, and the last piece is all that is left of the string after them
    and after the whitespace that follows them. *)
Lemma split_max_spec n s :
  ((length (split_max n s) ≤ n)%nat ∧ split_max n s = split s)
  ∨ ∃ pre piece,
      s = pre ++ piece ∧ piece ≠ [] ∧ lstrip piece = piece
      ∧ word_end (reverse pre) ∧ length (split pre) = n
      ∧ split_max n s = split pre ++ [piece].
Proof.
  revert s. induction n as [|n IH]; intros s.
  - destruct (lstrip_by_suffix is_space s) as (w0 & E & Hw0).
    cbn [split_max]. destruct (lstrip_by is_space s) as [|c r] eqn:Er.
    + left. split; [done|]. rewrite split_lstrip. unfold lstrip. by rewrite Er.
    + right. exists w0, (c :: r).
      assert (is_space c = false) as Hc by by eapply (span_snd is_space s).
      split_and!; [done|done|by apply lstrip_by_cons_false| |
                   by rewrite split_blank|by rewrite split_blank].
      intros c' s' Hrev. apply forallb_Forall in Hw0.
      apply Forall_reverse in Hw0. rewrite Hrev in Hw0. by inversion Hw0.
  - destruct (lstrip_by_suffix is_space s) as (w0 & E & Hw0).
    cbn [split_max]. destruct (lstrip_by is_space s) as [|c r] eqn:Er.
    + left. split; [simpl; lia|]. rewrite split_lstrip. unfold lstrip.
      by rewrite Er.
    + assert (is_space c = false) as Hc by by eapply (span_snd is_space s).
      pose proof (span_eq (λ c, negb (is_space c)) (c :: r)) as Hsp.
      pose proof (span_fst (λ c, negb (is_space c)) (c :: r)) as Hw.
      pose proof (span_snd (λ c, negb (is_space c)) (c :: r)) as Hrest.
      destruct (span _ (c :: r)) as [w rest] eqn:Es. cbn [fst snd] in *.
      assert (w ≠ []) as Hne.
      { intros ->. simpl in Es. rewrite Hc in Es. simpl in Es.
        by destruct (span _ r). }
      assert (word_end rest) as Hend.
      { intros c' s' ->. apply negb_false_iff. by eapply Hrest. }
      assert (split s = w :: split rest) as Hsplit.
      { rewrite E, split_skip_blank by done. rewrite <- Hsp.
        by apply split_word. }
      destruct (IH rest) as [[Hlen Heq]|(pre & piece & Hr & Hp & Hl & Hpre & Hn & Heq)].
      * left. rewrite Heq in Hlen |- *. rewrite Hsplit.
        split; [simpl; lia | done].
      * right. assert (pre ≠ []) as Hpre_ne.
        { intros ->. destruct piece as [|c' piece]; [done|].
          rewrite app_nil_l in Hr. unfold lstrip in Hl.
          pose proof (Hend c' piece Hr) as Hsp'.
          rewrite lstrip_by_cons_true in Hl by done.
          destruct (lstrip_by_suffix is_space piece) as (x & Ex & _).
          rewrite Hl in Ex. apply (f_equal length) in Ex.
          rewrite length_app in Ex. simpl in Ex. lia. }
        assert (split (w0 ++ w ++ pre) = w :: split pre) as Hsp2.
        { rewrite split_skip_blank by done. apply split_word; [done..|].
          apply (word_end_prefix pre piece); [by rewrite <- Hr | done]. }
        exists (w0 ++ w ++ pre), piece. split_and!; [ |done|done| | |].
        -- by rewrite E, <- Hsp, Hr, <- !app_assoc.
        -- rewrite app_assoc. by apply word_end_reverse_app.
        -- rewrite Hsp2. simpl. by rewrite Hn.
        -- by rewrite Hsp2, Heq.
Qed.

(** C5, as the code has it. For a usage string of the grammar, the words
    after the command name are split into at most max(number of declared
    parameters, 1) pieces. Either fewer pieces than that are obtained, and
    then they are exactly the words of the entry after the command word; or
    that many pieces are obtained, and then the earlier ones are words of
    the entry and the last one is all the text that is left after them,
    from its first character that is not whitespace to the end of the
    entry, spaces included. In particular "/topic hello world" in the
    channel "#x" binds "hello world" to [new_topic] and makes the one
    backend call change_topic("#x", "hello world"), returning [True]. *)
Theorem C5_last_argument_absorbs name reqs opts s :
  well_named name → Forall well_ident reqs → Forall well_ident opts →
  let usage := usage_string name reqs opts in
  let declared := (length reqs + length opts)%nat in
  let args := command_args usage s in
  (length args ≤ Nat.max declared 1)%nat
  ∧ (((length args < Nat.max declared 1)%nat ∧ args = tail (split s))
     ∨ (length args = Nat.max declared 1
        ∧ ∃ pre piece,
            s = pre ++ piece ∧ piece ≠ [] ∧ lstrip piece = piece
            ∧ word_end (reverse pre)
            ∧ length (split pre) = Nat.max declared 1
            ∧ args = tail (split pre) ++ [piece]))
  ∧ kwargs (lit "/topic <new_topic>")
      (command_args (lit "/topic <new_topic>") (lit "/topic hello world"))
    = {[ lit "new_topic" := lit "hello world" ]}
  ∧ ∀ answer,
      handle_command default_commands answer (ChannelView (lit "#x"))
        (lit "/topic hello world")
      = ([core_change_topic (lit "#x") (lit "hello world")], Val true).
Proof.
  intros Hn Hr Ho usage declared args. subst declared args.
  rewrite <- (count_space_usage name reqs opts) by done. fold usage.
  split_and!.
  - apply command_args_length.
  - unfold command_args. set (k := Nat.max _ 1).
    assert (1 ≤ k)%nat as Hk by (subst k; lia).
    destruct (split_max_spec k s)
      as [[Hlen Heq]|(pre & piece & Hs & Hp & Hl & Hpre & Hlen & Heq)].
    + left. rewrite Heq in *. split; [|done].
      destruct (split s); simpl in *; lia.
    + right. rewrite Heq.
      destruct (split pre) as [|w ws] eqn:Esp; [simpl in Hlen; lia|].
      cbn [tail app]. split.
      * rewrite length_app. simpl in *. lia.
      * exists pre, piece. rewrite Esp. by split_and!.
  - vm_compute. reflexivity.
  - intros answer. rewrite handle_command_command by (vm_compute; reflexivity).
    vm_compute. reflexivity.
Qed.

Lemma C5_last_argument_absorbs_witness :
  command_args (usage_string (lit "msg") [lit "nick"; lit "message"] [])
    (lit "/msg bob hi there") = [lit "bob"; lit "hi there"]
  ∧ ∃ pre piece,
      lit "/msg bob hi there" = pre ++ piece
      ∧ lstrip piece = piece
      ∧ length (split pre) = 2%nat
      ∧ command_args (usage_string (lit "msg") [lit "nick"; lit "message"] [])
          (lit "/msg bob hi there")
        = tail (split pre) ++ [piece].
Proof.
  split; [vm_compute; reflexivity|].
  destruct (C5_last_argument_absorbs (lit "msg") [lit "nick"; lit "message"] []
              (lit "/msg bob hi there")) as (_ & Hlast & _).
  - split; [discriminate | vm_compute; reflexivity].
  - repeat constructor; (discriminate || (vm_compute; reflexivity)).
  - constructor.
  - destruct Hlast as [[Hlt _]|[_ (pre & piece & Hs & _ & Hl & _ & Hlen & Hargs)]].
    + vm_compute in Hlt. lia.
    + exists pre, piece. split_and!; [exact Hs | exact Hl | exact Hlen | exact Hargs].
Defined.

(** The claim C5 as stated fails for a command without parameters: after
    "/quit", which declares none, the rest of the entry is still split off
    as one piece. *)
Lemma C5_counterexample :
  lit "/quit" = usage_string (lit "quit") [] []
  ∧ command_args (lit "/quit") (lit "/quit now please") = [lit "now please"]
  ∧ ¬ (length (command_args (lit "/quit") (lit "/quit now please"))
       ≤ length (@nil str) + length (@nil str))%nat.
Proof.
  split_and!; [vm_compute; reflexivity..|]. vm_compute. lia.
Qed.

(** C4. On the command path, for a registered command whose usage string
    follows the grammar, when the number of arguments is less than the
    number of required parameters or greater than the number of declared
    parameters, [handle_command] adds the one message "Usage: " followed by
    the usage string as registered, returns [False], and does not call the
    command function: no call reaches the backend. *)
Theorem C4_arity_mismatch cmds answer view s token usage func name reqs opts :
  fullmatch command_re s = true →
  head (split s) = Some token →
  cmds !! token = Some (usage, func) →
  usage = usage_string name reqs opts →
  well_named name → Forall well_ident reqs → Forall well_ident opts →
  let n := length (command_args usage s) in
  (n < length reqs ∨ length reqs + length opts < n)%nat →
  handle_command cmds answer view s
  = ([view_add_message (lit "*") (lit "Usage: " ++ usage)], Val false)
  ∧ core_calls (handle_command cmds answer view s).1 = [].
Proof.
  intros Hm Htok Hlook Hu Hn Hr Ho n Harity.
  assert (handle_command cmds answer view s
          = ([view_add_message (lit "*") (lit "Usage: " ++ usage)], Val false))
    as E; [|by rewrite E].
  rewrite handle_command_command by done. unfold command_path.
  destruct (split s) as [|w ws]; [done|]. injection Htok as ->.
  unfold index0. rewrite bind_ret, Hlook. fold n.
  rewrite Hu at 1 2. rewrite count_lt_usage, count_space_usage by done.
  assert ((n <? length reqs)%nat || (length reqs + length opts <? n)%nat = true)
    as ->.
  { apply orb_true_iff. rewrite !Nat.ltb_lt. lia. }
  by rewrite bind_emit.
Qed.

Lemma C4_arity_mismatch_witness :
  handle_command default_commands (λ _, true) (ChannelView (lit "#x")) (lit "/join")
  = ([view_add_message (lit "*") (lit "Usage: /join <channel>")], Val false).
Proof.
  apply (C4_arity_mismatch default_commands (λ _, true) (ChannelView (lit "#x"))
           (lit "/join") (lit "/join") (lit "/join <channel>")
           (def1 (lit "channel") join) (lit "join") [lit "channel"] []).
  - vm_compute. reflexivity.
  - vm_compute. reflexivity.
  - lookup_default.
  - vm_compute. reflexivity.
  - split; [discriminate | vm_compute; reflexivity].
  - constructor; [|constructor]. split; [discriminate | vm_compute; reflexivity].
  - constructor.
  - left. vm_compute. lia.
Defined.

End arity.

(** ** The service aliases *)

Section aliases.

Implicit Types (s m : str) (view : View) (answer : nat → bool).
Implicit Types (cmds : gmap str (str * handler)).

Lemma split_max_space n c s :
  is_space c = true → split_max n (c :: s) = split_max n s.
Proof.
  intros Hc. destruct n; cbn [split_max]; by rewrite lstrip_by_cons_true.
Qed.

Lemma split_max_0_text m : ¬ only_whitespace m → split_max 0 m = [lstrip m].
Proof.
  intros Hm. rewrite split_max_0. unfold lstrip.
  destruct (lstrip_by is_space m) eqn:E; [|done].
  by apply lstrip_by_nil_iff in E.
Qed.

Lemma lstrip_id c m : is_space c = false → lstrip (c :: m) = c :: m.
Proof. apply lstrip_by_cons_false. Qed.

(** The command path when the command is known and the arity fits. *)
Lemma command_path_call cmds view s token usage func :
  head (split s) = Some token →
  cmds !! token = Some (usage, func) →
  (count (lit " <") usage ≤ length (command_args usage s))%nat →
  (length (command_args usage s) ≤ count (lit " ") usage)%nat →
  command_path cmds view s
  = (func view (kwargs usage (command_args usage s)) ;; ret true).
Proof.
  intros Htok Hlook Hmin Hmax. unfold command_path.
  destruct (split s) as [|w ws]; [done|]. injection Htok as ->.
  unfold index0. rewrite bind_ret, Hlook.
  assert ((length (command_args usage s) <? count (lit " <") usage)%nat
          || (count (lit " ") usage <? length (command_args usage s))%nat = false)
    as ->; [|done].
  apply orb_false_iff. rewrite !Nat.ltb_ge. lia.
Qed.

Lemma command_re_message name m :
  well_named name → forallb is_dot m = true →
  fullmatch command_re (SLASH :: name ++ SPACE :: m) = true.
Proof.
  intros Hn Hm. apply command_re_spec. exists name, (SPACE :: m).
  split_and!; [done..|]. right. by exists m.
Qed.

(** One-parameter commands: the argument is the text after the command
    word, without its leading whitespace. *)
Lemma one_argument usage name m :
  forallb (λ c, negb (is_space c)) (SLASH :: name) = true →
  count (lit " ") usage = 1%nat →
  ¬ only_whitespace m →
  head (split (SLASH :: name ++ SPACE :: m)) = Some (SLASH :: name)
  ∧ command_args usage (SLASH :: name ++ SPACE :: m) = [lstrip m].
Proof.
  intros Hw Hc Hm. split.
  - change (SLASH :: name ++ SPACE :: m) with ((SLASH :: name) ++ SPACE :: m).
    rewrite split_word; [done|done|done|]. by intros c s' [= <- _].
  - unfold command_args. rewrite Hc. cbn [Nat.max].
    change (SLASH :: name ++ SPACE :: m) with ((SLASH :: name) ++ SPACE :: m).
    rewrite split_max_word; [|done|done|by intros c s' [= <- _]].
    cbn [tail]. by rewrite split_max_space, split_max_0_text.
Qed.

(** Two-parameter commands. *)
Lemma two_arguments usage name w m :
  forallb (λ c, negb (is_space c)) (SLASH :: name) = true →
  w ≠ [] → forallb (λ c, negb (is_space c)) w = true →
  count (lit " ") usage = 2%nat →
  ¬ only_whitespace m →
  head (split (SLASH :: name ++ SPACE :: w ++ SPACE :: m)) = Some (SLASH :: name)
  ∧ command_args usage (SLASH :: name ++ SPACE :: w ++ SPACE :: m)
    = [w; lstrip m].
Proof.
  intros Hn Hne Hw Hc Hm. split.
  - change (SLASH :: name ++ SPACE :: w ++ SPACE :: m)
      with ((SLASH :: name) ++ SPACE :: w ++ SPACE :: m).
    rewrite split_word; [done|done|done|]. by intros c s' [= <- _].
  - unfold command_args. rewrite Hc. cbn [Nat.max].
    change (SLASH :: name ++ SPACE :: w ++ SPACE :: m)
      with ((SLASH :: name) ++ SPACE :: w ++ SPACE :: m).
    rewrite split_max_word; [|done|done|by intros c s' [= <- _]].
    cbn [tail]. rewrite split_max_space by done.
    rewrite split_max_word; [|done|done|by intros c s' [= <- _]].
    by rewrite split_max_space, split_max_0_text.
Qed.

Lemma lower_not_space name :
  forallb is_lower name = true →
  forallb (λ c, negb (is_space c)) (SLASH :: name) = true.
Proof.
  intros Hn. cbn [forallb]. apply andb_true_iff. split; [done|].
  revert Hn. apply forallb_impl. intros c Hc%is_lower_not_space. by rewrite Hc.
Qed.

Lemma run_one_argument cmds answer view name usage func m (ev : str → event) :
  well_named name →
  cmds !! (SLASH :: name) = Some (usage, func) →
  count (lit " ") usage = 1%nat → count (lit " <") usage = 1%nat →
  (∀ x, func view (kwargs usage [x]) = ([ev x], Val ())) →
  forallb is_dot m = true → ¬ only_whitespace m →
  handle_command cmds answer view (SLASH :: name ++ SPACE :: m)
  = ([ev (lstrip m)], Val true).
Proof.
  intros Hn Hlook Hc1 Hc2 Hcall Hdot Hm.
  rewrite handle_command_command by by apply command_re_message.
  destruct (one_argument usage name m) as [Htok Hargs];
    [by apply lower_not_space, Hn | done..|].
  rewrite (command_path_call cmds view _ _ usage func Htok Hlook).
  - by rewrite Hargs, Hcall, bind_val.
  - by rewrite Hargs, Hc2.
  - by rewrite Hargs, Hc1.
Qed.

Lemma run_two_arguments cmds answer view name usage func w m
    (ev : str → event) :
  well_named name →
  w ≠ [] → forallb (λ c, negb (is_space c)) w = true →
  forallb is_dot w = true →
  cmds !! (SLASH :: name) = Some (usage, func) →
  count (lit " ") usage = 2%nat → count (lit " <") usage = 2%nat →
  (∀ x, func view (kwargs usage [w; x]) = ([ev x], Val ())) →
  forallb is_dot m = true → ¬ only_whitespace m →
  handle_command cmds answer view (SLASH :: name ++ SPACE :: w ++ SPACE :: m)
  = ([ev (lstrip m)], Val true).
Proof.
  intros Hn Hne Hw Hwdot Hlook Hc1 Hc2 Hcall Hdot Hm.
  rewrite handle_command_command.
  2:{ apply command_re_message; [done|]. by apply forallb_app_true. }
  destruct (two_arguments usage name w m) as [Htok Hargs];
    [by apply lower_not_space, Hn | done..|].
  rewrite (command_path_call cmds view _ _ usage func Htok Hlook).
  - by rewrite Hargs, Hcall, bind_val.
  - by rewrite Hargs, Hc2.
  - by rewrite Hargs, Hc1.
Qed.

(** C9, as the code has it. For a message without line feed that is not
    made of whitespace only, "/ns " or "/nickserv " followed by the message
    does, in any view, what "/msg NickServ " followed by the message does:
    one backend call send_privmsg("NickServ", text), where the text is the
    message without its leading whitespace (the message itself when it does
    not start with whitespace), and [True] is returned. The same holds of
    "/ms ", "/memoserv " and "/msg MemoServ ". *)
Theorem C9_service_aliases answer view m :
  forallb is_dot m = true → ¬ only_whitespace m →
  let run prefix := handle_command default_commands answer view (prefix ++ m) in
  let sent service := ([core_send_privmsg service (lstrip m)], Val true) in
  (run (lit "/ns ") = sent (lit "NickServ")
   ∧ run (lit "/nickserv ") = sent (lit "NickServ")
   ∧ run (lit "/msg NickServ ") = sent (lit "NickServ"))
  ∧ (run (lit "/ms ") = sent (lit "MemoServ")
     ∧ run (lit "/memoserv ") = sent (lit "MemoServ")
     ∧ run (lit "/msg MemoServ ") = sent (lit "MemoServ"))
  ∧ (∀ c m', m = c :: m' → is_space c = false → lstrip m = m).
Proof.
  intros Hdot Hm run sent. subst run sent. cbn beta.
  split_and!.
  - apply (run_one_argument _ _ _ (lit "ns") (lit "/ns <message>")
             (def1 (lit "message") msg_nickserv) m
             (core_send_privmsg (lit "NickServ"))); one_argument_command.
  - apply (run_one_argument _ _ _ (lit "nickserv") (lit "/nickserv <message>")
             (def1 (lit "message") msg_nickserv) m
             (core_send_privmsg (lit "NickServ"))); one_argument_command.
  - apply (run_two_arguments _ _ _ (lit "msg") (lit "/msg <nick> <message>")
             (def2 (lit "nick") (lit "message") msg) (lit "NickServ") m
             (core_send_privmsg (lit "NickServ"))); two_argument_command.
  - apply (run_one_argument _ _ _ (lit "ms") (lit "/ms <message>")
             (def1 (lit "message") msg_memoserv) m
             (core_send_privmsg (lit "MemoServ"))); one_argument_command.
  - apply (run_one_argument _ _ _ (lit "memoserv") (lit "/memoserv <message>")
             (def1 (lit "message") msg_memoserv) m
             (core_send_privmsg (lit "MemoServ"))); one_argument_command.
  - apply (run_two_arguments _ _ _ (lit "msg") (lit "/msg <nick> <message>")
             (def2 (lit "nick") (lit "message") msg) (lit "MemoServ") m
             (core_send_privmsg (lit "MemoServ"))); two_argument_command.
  - intros c m' -> Hc. by apply lstrip_id.
Qed.

Lemma C9_service_aliases_witness :
  handle_command default_commands (λ _, true) OtherView (lit "/ns " ++ lit "identify hunter2")
  = ([core_send_privmsg (lit "NickServ") (lit "identify hunter2")], Val true)
  ∧ handle_command default_commands (λ _, true) OtherView
      (lit "/msg NickServ " ++ lit "identify hunter2")
    = ([core_send_privmsg (lit "NickServ") (lit "identify hunter2")], Val true).
Proof.
  destruct (C9_service_aliases (λ _, true) OtherView (lit "identify hunter2"))
    as ((H1 & _ & H3) & _ & _);
    [vm_compute; reflexivity | vm_compute; discriminate |].
  split; [exact H1 | exact H3].
Defined.

(** The claim C9 as stated fails for a message that starts with
    whitespace: " hi" is not empty, has no line break and is not whitespace
    only, yet "/ns  hi" sends "hi", not " hi". *)
Lemma C9_counterexample :
  lit " hi" ≠ [] ∧ single_line (lit " hi") ∧ ¬ only_whitespace (lit " hi")
  ∧ handle_command default_commands (λ _, true) OtherView (lit "/ns " ++ lit " hi")
    = ([core_send_privmsg (lit "NickServ") (lit "hi")], Val true)
  ∧ handle_command default_commands (λ _, true) OtherView (lit "/ns " ++ lit " hi")
    ≠ ([core_send_privmsg (lit "NickServ") (lit " hi")], Val true).
Proof.
  split_and!; [done | vm_compute; reflexivity | vm_compute; discriminate
              | vm_compute; reflexivity | vm_compute; discriminate].
Qed.

End aliases.

(** ** Registration *)

Section registration.

Implicit Types (s w a b c : str) (i j : str).
Implicit Types (cmds : gmap str (str * handler)).

Lemma count_lt_opt_tokens opts s :
  Forall well_ident opts →
  count (lit " <") (concat (map opt_token opts) ++ s) = count (lit " <") s.
Proof.
  intros Ho. induction Ho as [|i opts Hi _ IH]; [done|].
  cbn [map concat]. by rewrite <- app_assoc, count_lt_opt_token.
Qed.

Lemma count_lt_occurrence a b : (1 ≤ count (lit " <") (a ++ lit " <" ++ b))%nat.
Proof.
  induction a as [|x a IH].
  - change ([] ++ lit " <" ++ b) with (SPACE :: LT :: b).
    rewrite count_lt_cons. change (startswith (lit "<") (LT :: b)) with true.
    change (SPACE =? SPACE) with true. cbn [andb]. lia.
  - change ((x :: a) ++ lit " <" ++ b) with (x :: (a ++ lit " <" ++ b)).
    rewrite count_lt_cons. lia.
Qed.

Lemma after_bracket_app a s :
  ∃ x, after_bracket (a ++ LBRACKET :: s) = x ++ LBRACKET :: s.
Proof.
  unfold after_bracket. induction a as [|y a [x IH]].
  - exists []. by rewrite app_nil_l, lstrip_by_cons_false.
  - change ((y :: a) ++ LBRACKET :: s) with (y :: (a ++ LBRACKET :: s)).
    destruct (negb (y =? LBRACKET)) eqn:E.
    + exists x. by rewrite lstrip_by_cons_true.
    + exists (y :: a). by rewrite lstrip_by_cons_false.
Qed.

Lemma ident_no_bracket i : forallb is_ident i = true → no_bracket i.
Proof.
  apply forallb_impl. intros x. unfold is_ident, is_lower, UNDERSCORE, LBRACKET.
  lia.
Qed.

Lemma req_tokens_no_bracket reqs :
  Forall well_ident reqs → no_bracket (concat (map req_token reqs)).
Proof.
  unfold no_bracket. intros Hr. induction Hr as [|i reqs [_ Hi] _ IH]; [done|].
  cbn [map concat]. unfold req_token.
  rewrite !forallb_app_true. split_and!; [done| |done|done].
  by apply ident_no_bracket.
Qed.

(** After the first opening bracket of a usage string of the grammar, no
    required parameter begins. *)
Lemma after_bracket_usage name reqs opts :
  well_named name → Forall well_ident reqs → Forall well_ident opts →
  count (lit " <") (after_bracket (usage_string name reqs opts)) = 0%nat.
Proof.
  intros [_ Hn] Hr Ho. unfold usage_string.
  assert (no_bracket (lit "/" ++ name ++ concat (map req_token reqs))) as Hpre.
  { unfold no_bracket. rewrite !forallb_app_true. split_and!; [done| |].
    - apply ident_no_bracket. revert Hn. apply forallb_impl, is_lower_ident.
    - by apply req_tokens_no_bracket. }
  rewrite !app_assoc. rewrite <- (app_assoc (lit "/")).
  set (pre := lit "/" ++ name ++ concat (map req_token reqs)) in *.
  unfold after_bracket. destruct Ho as [|i opts Hi Ho].
  - cbn [map concat]. rewrite app_nil_r.
    by apply lstrip_by_nil_iff in Hpre as ->.
  - cbn [map concat]. unfold opt_token at 1.
    change (lit " [<") with ([SPACE] ++ LBRACKET :: [LT]).
    rewrite <- !app_assoc, (app_assoc pre [SPACE]).
    unfold lstrip_by. rewrite span_app.
    + cbn [snd]. destruct Hi as [_ Hi%ident_no_SPACE].
      change (LBRACKET :: [LT] ++ i ++ lit ">]" ++ concat (map opt_token opts))
        with ([LBRACKET; LT] ++ i ++ lit ">]" ++ concat (map opt_token opts)).
      rewrite !app_assoc, <- (app_assoc [LBRACKET; LT]).
      rewrite count_lt_word_app.
      * rewrite <- (app_nil_r (concat _)). by rewrite count_lt_opt_tokens.
      * apply (no_SPACE_app [LBRACKET; LT]); [done|]. by apply no_SPACE_app.
    + apply forallb_app_true. by split.
    + by intros x s' [= <- _].
Qed.

(** A string in which a required parameter comes after an optional one
    does not match [usage_re]. *)
Lemma usage_re_rejects a i b j c :
  fullmatch usage_re (a ++ opt_token i ++ b ++ req_token j ++ c) = false.
Proof.
  apply not_true_is_false.
  intros (name & reqs & opts & Hn & Hr & Ho & E)%usage_re_spec.
  pose proof (after_bracket_usage name reqs opts Hn Hr Ho) as H0.
  rewrite <- E in H0. clear E. revert H0.
  unfold opt_token, req_token.
  change (lit " [<") with ([SPACE] ++ LBRACKET :: [LT]).
  rewrite <- !app_assoc, (app_assoc a [SPACE]).
  destruct (after_bracket_app (a ++ [SPACE])
              ([LT] ++ i ++ lit ">]" ++ b ++ lit " <" ++ j ++ lit ">" ++ c))
    as [x Hx].
  cbn [app] in *. rewrite Hx.
  pose proof (count_lt_occurrence (x ++ LBRACKET :: LT :: i ++ lit ">]" ++ b)
                (j ++ lit ">" ++ c)) as H1.
  rewrite <- !app_assoc in H1. cbn [app] in H1.
  rewrite <- !app_assoc in H1. cbn [app] in *. lia.
Qed.

Lemma add_command_ok usage func cmds cmds' :
  registry_ok cmds → add_command usage func cmds = Val cmds' →
  registry_ok cmds'.
Proof.
  unfold add_command. intros Hok Hadd.
  destruct (fullmatch usage_re usage) eqn:Hu; [|done].
  destruct (split usage) as [|name ws]; [done|]. injection Hadd as <-.
  intros k u f. rewrite lookup_insert. case_decide; [|apply Hok].
  by intros [= <- <-].
Qed.

Lemma add_commands_ok regs cmds cmds' :
  registry_ok cmds → add_commands regs cmds = Val cmds' → registry_ok cmds'.
Proof.
  revert cmds. induction regs as [|[usage func] regs IH]; intros cmds Hok.
  - by intros [= <-].
  - cbn [add_commands]. destruct (add_command usage func cmds) eqn:E; [|done].
    apply IH. by eapply add_command_ok.
Qed.

(** A registered usage string has the form given by the grammar. *)
Lemma registered_usage cmds token usage func :
  registry_ok cmds → cmds !! token = Some (usage, func) →
  ∃ name reqs opts, well_named name ∧ Forall well_ident reqs ∧
    Forall well_ident opts ∧ usage = usage_string name reqs opts.
Proof. intros Hok Hlook. eapply usage_re_spec, Hok, Hlook. Qed.

Lemma _add_default_commands_val : _add_default_commands = Val default_commands.
Proof. lookup_default. Qed.

Lemma default_commands_ok : registry_ok default_commands.
Proof.
  eapply add_commands_ok; [|apply _add_default_commands_val]. by intros k u f.
Qed.

(** C8. [add_command] accepts a usage string exactly when it is a slash and
    one or more lowercase letters, followed by any number of tokens " <ident>"
    and then by any number of tokens " [<ident>]", each ident being one or
    more characters among a to z and the underscore. Every usage string of
    the default commands is accepted, so that loading the module fills the
    registry without error. Any string in which a token " <ident>" comes
    somewhere after a token " [<ident>]" is rejected, and registering it
    fails on the assertion, with the registry untouched. *)
Theorem C8_usage_grammar :
  (∀ usage,
     fullmatch usage_re usage = true ↔
     ∃ name reqs opts, well_named name ∧ Forall well_ident reqs ∧
       Forall well_ident opts ∧ usage = usage_string name reqs opts)
  ∧ (Forall (λ reg, fullmatch usage_re reg.1 = true) default_registrations
     ∧ _add_default_commands = Val default_commands
     ∧ size default_commands = 11%nat)
  ∧ (∀ a i b j c func cmds,
       let usage := a ++ opt_token i ++ b ++ req_token j ++ c in
       fullmatch usage_re usage = false
       ∧ add_command usage func cmds = Exc AssertionError).
Proof.
  split_and!.
  - apply usage_re_spec.
  - unfold default_registrations.
    repeat (constructor; [vm_compute; reflexivity|]). constructor.
  - apply _add_default_commands_val.
  - vm_compute. reflexivity.
  - intros a i b j c func cmds usage.
    pose proof (usage_re_rejects a i b j c) as H. fold usage in H.
    split; [done|]. unfold add_command. by rewrite H.
Qed.

End registration.

(** ** The words of a usage string *)

Section usage_words.

Implicit Types (s w i name : str) (reqs opts : list str).

Lemma req_token_word i : req_token i = SPACE :: req_word i.
Proof. done. Qed.

Lemma opt_token_word i : opt_token i = SPACE :: opt_word i.
Proof. done. Qed.

Lemma ident_not_space i :
  forallb is_ident i = true → forallb (λ c, negb (is_space c)) i = true.
Proof.
  apply forallb_impl. intros c Hc%is_ident_not_space. by rewrite Hc.
Qed.

Lemma req_word_solid i :
  well_ident i →
  req_word i ≠ [] ∧ forallb (λ c, negb (is_space c)) (req_word i) = true.
Proof.
  intros [_ Hi%ident_not_space]. split; [done|]. unfold req_word.
  rewrite !forallb_app_true. by split_and!.
Qed.

Lemma opt_word_solid i :
  well_ident i →
  opt_word i ≠ [] ∧ forallb (λ c, negb (is_space c)) (opt_word i) = true.
Proof.
  intros [_ Hi%ident_not_space]. split; [done|]. unfold opt_word.
  rewrite !forallb_app_true. by split_and!.
Qed.

Lemma tokens_word_end (token : str → str) ids s :
  (∀ i, ∃ w, token i = SPACE :: w) → word_end s →
  word_end (concat (map token ids) ++ s).
Proof.
  intros Htok Hs. destruct ids as [|i ids]; [done|].
  cbn [map concat]. destruct (Htok i) as [w ->]. by intros c s' [= <- _].
Qed.

Lemma split_tokens (token word : str → str) ids s :
  (∀ i, token i = SPACE :: word i) →
  (∀ i, well_ident i →
     word i ≠ [] ∧ forallb (λ c, negb (is_space c)) (word i) = true) →
  Forall well_ident ids → word_end s →
  split (concat (map token ids) ++ s) = map word ids ++ split s.
Proof.
  intros Htok Hword Hids Hs. induction Hids as [|i ids Hi _ IH]; [done|].
  cbn [map concat]. rewrite Htok, <- app_assoc.
  change ((SPACE :: word i) ++ concat (map token ids) ++ s)
    with (SPACE :: (word i ++ concat (map token ids) ++ s)).
  destruct (Hword i Hi) as [Hne Hsolid].
  transitivity (split (word i ++ concat (map token ids) ++ s)).
  { destruct (word i ++ concat (map token ids) ++ s); done. }
  rewrite split_word, IH; [done..|].
  apply tokens_word_end; [|done]. intros j. rewrite Htok. eauto.
Qed.

(** The words of a usage string of the grammar. *)
Lemma split_usage name reqs opts :
  well_named name → Forall well_ident reqs → Forall well_ident opts →
  split (usage_string name reqs opts)
  = (SLASH :: name) :: map req_word reqs ++ map opt_word opts.
Proof.
  intros [Hne Hn] Hr Ho. unfold usage_string.
  change (lit "/" ++ name ++ ?x) with ((SLASH :: name) ++ x).
  rewrite split_word.
  - f_equal. rewrite (split_tokens req_token req_word);
      [|done|apply req_word_solid|done|].
    + f_equal. rewrite <- (app_nil_r (concat (map opt_token opts))).
      rewrite (split_tokens opt_token opt_word);
        [by rewrite app_nil_r|done|apply opt_word_solid|done|done].
    + rewrite <- (app_nil_r (concat (map opt_token opts))).
      apply tokens_word_end; [|done]. intros j. rewrite opt_token_word. eauto.
  - done.
  - cbn [forallb]. apply andb_true_iff. split; [done|].
    revert Hn. apply forallb_impl. intros c Hc%is_lower_not_space. by rewrite Hc.
  - apply tokens_word_end.
    + intros j. rewrite req_token_word. eauto.
    + rewrite <- (app_nil_r (concat (map opt_token opts))).
      apply tokens_word_end; [|done]. intros j. rewrite opt_token_word. eauto.
Qed.

End usage_words.

(** ** Registration and binding *)

Section binding.

Implicit Types (s w i name usage : str) (reqs opts names args : list str).
Implicit Types (cmds : gmap str (str * handler)).

Lemma lstrip_by_app p w s :
  forallb p w = true → (∀ c s', s = c :: s' → p c = false) →
  lstrip_by p (w ++ s) = s.
Proof. intros Hw Hs. unfold lstrip_by. by rewrite span_app. Qed.

Lemma is_ident_not_bracket c :
  is_ident c = true → existsb (N.eqb c) (lit "[<>]") = false.
Proof.
  change (lit "[<>]") with [LBRACKET; LT; GT; RBRACKET]. cbn [existsb].
  unfold is_ident, is_lower, UNDERSCORE, LBRACKET, LT, GT, RBRACKET. lia.
Qed.

Lemma ident_head i c s' :
  forallb is_ident i = true → i = c :: s' →
  existsb (N.eqb c) (lit "[<>]") = false.
Proof.
  intros Hi ->. cbn [forallb] in Hi. apply andb_true_iff in Hi as [Hc _].
  by apply is_ident_not_bracket.
Qed.

Lemma ident_reverse i : forallb is_ident i = true → forallb is_ident (reverse i) = true.
Proof. rewrite !forallb_Forall. apply Forall_reverse. Qed.

(** Stripping the brackets of a usage word leaves the parameter name. *)
Lemma strip_word pre post i :
  forallb (λ c, existsb (N.eqb c) (lit "[<>]")) pre = true →
  forallb (λ c, existsb (N.eqb c) (lit "[<>]")) post = true →
  well_ident i →
  strip (lit "[<>]") (pre ++ i ++ post) = i.
Proof.
  intros Hpre Hpost [Hne Hi]. unfold strip, rstrip_by.
  rewrite lstrip_by_app; [|done|].
  2:{ intros c s' E. destruct i as [|c0 i]; [done|]. injection E as <- _.
      by eapply ident_head. }
  rewrite reverse_app, lstrip_by_app.
  - apply reverse_involutive.
  - rewrite forallb_Forall in *. by apply Forall_reverse.
  - intros c s' E. eapply ident_head; [by apply ident_reverse|done].
Qed.

Lemma strip_req_word i : well_ident i → strip (lit "[<>]") (req_word i) = i.
Proof. intros Hi. by apply (strip_word (lit "<") (lit ">")). Qed.

Lemma strip_opt_word i : well_ident i → strip (lit "[<>]") (opt_word i) = i.
Proof. intros Hi. by apply (strip_word (lit "[<") (lit ">]")). Qed.

Lemma foldl_insert_strip (ws names args : list str) (d : gmap str str) :
  Forall2 (λ w i, strip (lit "[<>]") w = i) ws names →
  foldl (λ d na, <[strip (lit "[<>]") na.1 := na.2]> d) d (zip ws args)
  = foldl (λ d na, <[na.1 := na.2]> d) d (zip names args).
Proof.
  intros H. revert args d. induction H as [|w i ws names Hw _ IH];
    intros args d; [done|].
  destruct args as [|a args]; [done|]. cbn [zip zip_with foldl fst snd].
  by rewrite Hw, IH.
Qed.

Lemma dom_foldl_insert names args (d : gmap str str) :
  dom (foldl (λ d na, <[na.1 := na.2]> d) d (zip names args))
  = list_to_set (take (length args) names) ∪ dom d.
Proof.
  revert args d. induction names as [|i names IH]; intros args d.
  - rewrite take_nil. cbn. by rewrite union_empty_l_L.
  - destruct args as [|a args]; [cbn; by rewrite union_empty_l_L|].
    cbn [zip zip_with foldl fst snd length take list_to_set].
    rewrite IH, dom_insert_L.
    by rewrite (assoc_L (∪)), (comm_L (∪) _ {[i]}).
Qed.

Lemma lookup_foldl_insert names args (d : gmap str str) k :
  k ∉ take (length args) names →
  foldl (λ d na, <[na.1 := na.2]> d) d (zip names args) !! k = d !! k.
Proof.
  revert args d. induction names as [|i names IH]; intros args d Hk; [done|].
  destruct args as [|a args]; [done|].
  cbn [zip zip_with foldl fst snd length take] in *.
  apply not_elem_of_cons in Hk as [Hki Hk].
  by rewrite IH, lookup_insert_ne.
Qed.

Lemma lookup_dict names args (d : gmap str str) n p :
  NoDup names → names !! n = Some p →
  foldl (λ d na, <[na.1 := na.2]> d) d (zip names args) !! p
  = match args !! n with Some a => Some a | None => d !! p end.
Proof.
  intros Hnd. revert args d n.
  induction Hnd as [|i names Hi Hnd IH]; intros args d n Hp; [done|].
  destruct args as [|a args]; [done|].
  cbn [zip zip_with foldl fst snd]. destruct n as [|n]; cbn in Hp.
  - injection Hp as ->. rewrite lookup_foldl_insert.
    + by rewrite lookup_insert_eq.
    + intros Hin%elem_of_take. destruct Hin as (j & Hj & _).
      apply Hi. by eapply list_elem_of_lookup_2.
  - rewrite (IH args _ n Hp). cbn. destruct (args !! n); [done|].
    apply lookup_insert_ne. intros ->. apply Hi.
    by eapply list_elem_of_lookup_2.
Qed.

Lemma kwargs_dict name reqs opts args :
  well_named name → Forall well_ident reqs → Forall well_ident opts →
  kwargs (usage_string name reqs opts) args = dict_of_zip (reqs ++ opts) args.
Proof.
  intros Hn Hr Ho.
  unfold kwargs, dict_of_zip. rewrite split_usage by done. cbn [tail].
  apply foldl_insert_strip. apply Forall2_app.
  - induction Hr as [|i reqs Hi _ IH]; constructor; [|done].
    by apply strip_req_word.
  - induction Ho as [|i opts Hi _ IH]; constructor; [|done].
    by apply strip_opt_word.
Qed.

(** X3. For a usage string of the grammar, the keyword arguments of the
    call bind the declared parameter names, brackets stripped, to the
    arguments by position. The names bound are exactly the first
    [len(args)] declared ones: a parameter that gets no argument is absent
    from the dict, not bound to an empty string. When the declared names are
    distinct, the parameter at each position is bound to the argument at
    that position. *)
Theorem X3_kwargs_positional name reqs opts args :
  well_named name → Forall well_ident reqs → Forall well_ident opts →
  let usage := usage_string name reqs opts in
  kwargs usage args = dict_of_zip (reqs ++ opts) args
  ∧ dom (kwargs usage args) = list_to_set (take (length args) (reqs ++ opts))
  ∧ (NoDup (reqs ++ opts) →
     ∀ n p, (reqs ++ opts) !! n = Some p → kwargs usage args !! p = args !! n).
Proof.
  intros Hn Hr Ho usage. unfold usage. rewrite kwargs_dict by done. unfold dict_of_zip. split; [done|]. split.
  - by rewrite dom_foldl_insert, dom_empty_L, union_empty_r_L.
  - intros Hnd n p Hp. rewrite (lookup_dict _ _ _ n) by done.
    by destruct (args !! n).
Qed.

Lemma X3_kwargs_positional_witness :
  kwargs (usage_string (lit "msg") [lit "nick"; lit "message"] [])
    [lit "bob"] !! lit "nick" = Some (lit "bob")
  ∧ kwargs (usage_string (lit "msg") [lit "nick"; lit "message"] [])
      [lit "bob"] !! lit "message" = None.
Proof.
  destruct (X3_kwargs_positional (lit "msg") [lit "nick"; lit "message"] []
              [lit "bob"]) as (_ & _ & H).
  - split; [discriminate | vm_compute; reflexivity].
  - repeat constructor; (discriminate || (vm_compute; reflexivity)).
  - constructor.
  - assert (NoDup ([lit "nick"; lit "message"] ++ [])) as Hnd.
    { apply (bool_decide_unpack (NoDup ([lit "nick"; lit "message"] ++ []))).
      vm_compute. exact I. }
    split; [apply (H Hnd 0%nat) | apply (H Hnd 1%nat)]; reflexivity.
Defined.

End binding.

(** ** The registry *)

Section registry.

Implicit Types (s name usage key : str) (reqs opts : list str).
Implicit Types (cmds : gmap str (str * handler)) (func : handler).

(** X1. [add_command] either fails on its assertion, when the usage string
    does not match the pattern, or stores the pair of the usage string and
    the function under the command word of the usage string, slash
    included: it replaces whatever was registered under that word and
    leaves every other entry as it was. It never fails in another way. *)
Theorem X1_add_command_registers usage func cmds :
  (fullmatch usage_re usage = false
   ∧ add_command usage func cmds = Exc AssertionError)
  ∨ (∃ name reqs opts cmds',
       well_named name ∧ Forall well_ident reqs ∧ Forall well_ident opts
       ∧ usage = usage_string name reqs opts
       ∧ add_command usage func cmds = Val cmds'
       ∧ cmds' !! (SLASH :: name) = Some (usage, func)
       ∧ ∀ key, key ≠ SLASH :: name → cmds' !! key = cmds !! key).
Proof.
  unfold add_command. destruct (fullmatch usage_re usage) eqn:Hu; [right|by left].
  pose proof Hu as (name & reqs & opts & Hn & Hr & Ho & ->)%usage_re_spec.
  exists name, reqs, opts. eexists. split_and!; [done..| | |].
  - by rewrite split_usage.
  - by rewrite lookup_insert_eq.
  - intros key Hkey. by rewrite lookup_insert_ne.
Qed.

Lemma add_command_keyed usage func cmds cmds' :
  registry_keyed cmds → add_command usage func cmds = Val cmds' →
  registry_keyed cmds'.
Proof.
  unfold add_command. intros Hok Hadd.
  destruct (fullmatch usage_re usage) eqn:Hu; [|done].
  destruct (split usage) as [|name ws] eqn:Hs; [done|]. injection Hadd as <-.
  intros k u f. rewrite lookup_insert. case_decide as Hk; [|apply Hok].
  intros [= <- <-]. subst k. by rewrite Hs.
Qed.

(** X2. Registration keeps the registry keyed by command word: every entry
    sits under the first word of its own usage string, and that usage
    string matches the pattern of [add_command]. This holds of the registry
    of the default commands. *)
Theorem X2_registry_keyed regs cmds cmds' :
  registry_keyed cmds → add_commands regs cmds = Val cmds' →
  registry_keyed cmds'.
Proof.
  revert cmds. induction regs as [|[usage func] regs IH]; intros cmds Hok.
  - by intros [= <-].
  - cbn [add_commands]. destruct (add_command usage func cmds) eqn:E; [|done].
    apply IH. by eapply add_command_keyed.
Qed.

Lemma X2_registry_keyed_witness : registry_keyed default_commands.
Proof.
  apply (X2_registry_keyed default_registrations ∅ default_commands).
  - intros key usage func Hlook. rewrite lookup_empty in Hlook. discriminate.
  - lookup_default.
Defined.

(** An entry of a registry built by [add_commands] was there before or is
    one of the registrations. *)
Lemma add_commands_lookup regs cmds cmds' key usage func :
  add_commands regs cmds = Val cmds' →
  cmds' !! key = Some (usage, func) →
  cmds !! key = Some (usage, func) ∨ (usage, func) ∈ regs.
Proof.
  revert cmds. induction regs as [|[u f] regs IH]; intros cmds.
  - intros [= <-]. by left.
  - cbn [add_commands]. destruct (add_command u f cmds) as [c1|] eqn:E; [|done].
    intros Hadd Hlook. destruct (IH c1 Hadd Hlook) as [H1|Hin].
    + unfold add_command in E. destruct (fullmatch usage_re u); [|done].
      destruct (split u) as [|name ws]; [done|]. injection E as <-.
      rewrite lookup_insert in H1. case_decide.
      * injection H1 as <- <-. right. by left.
      * by left.
    + right. by right.
Qed.

Lemma default_commands_lookup key usage func :
  default_commands !! key = Some (usage, func) →
  (usage, func) ∈ default_registrations.
Proof.
  intros Hlook.
  destruct (add_commands_lookup default_registrations ∅ default_commands
              key usage func) as [H|H]; [apply _add_default_commands_val|done| |done].
  by rewrite lookup_empty in H.
Qed.

End registry.

(** ** Outcomes of a dispatch *)

Section outcomes.

Implicit Types (s name usage : str) (view : View) (answer : nat → bool).
Implicit Types (cmds : gmap str (str * handler)) (func : handler).

Lemma command_path_outcome cmds view s :
  (command_path cmds view s).2 = Val false →
  core_calls (command_path cmds view s).1 = []
  ∧ (length (command_path cmds view s).1 ≤ 1)%nat.
Proof.
  unfold command_path, index0. destruct (split s) as [|w ws].
  { unfold raise. by rewrite bind_exc. }
  rewrite bind_ret. destruct (cmds !! w) as [[usage func]|].
  - destruct (_ || _).
    + rewrite bind_emit. cbn. split; [done|lia].
    + destruct (func view _) as [t [[]|e]];
        [rewrite bind_val | rewrite bind_exc]; by cbn.
  - rewrite bind_ret, bind_emit. cbn. split; [done|lia].
Qed.

(** X4. Whatever the registry, when [handle_command] returns [False]
    nothing has been done: no call reached the backend, no command function
    was run, and at most one thing happened besides, a single message added
    to the view or the confirmation dialog that the user declined. *)
Theorem X4_false_means_nothing_sent cmds answer view s :
  (handle_command cmds answer view s).2 = Val false →
  core_calls (handle_command cmds answer view s).1 = []
  ∧ (length (handle_command cmds answer view s).1 ≤ 1)%nat.
Proof.
  unfold handle_command. destruct s as [|c s]; [cbn; split; [done|lia]|].
  destruct (fullmatch command_re (c :: s)).
  - apply command_path_outcome.
  - unfold plain_text_path. rewrite send_lines_spec.
    destruct (3 <? _)%nat; [destruct (answer _)|]; cbn [fst snd]; done.
Qed.

Lemma X4_false_means_nothing_sent_witness :
  core_calls (handle_command default_commands (λ _, true)
                (ChannelView (lit "#x")) (lit "/join")).1 = [].
Proof.
  apply (X4_false_means_nothing_sent default_commands (λ _, true)
           (ChannelView (lit "#x")) (lit "/join")).
  vm_compute. reflexivity.
Defined.

(** Each default command accepts the keyword arguments it is called with
    once the arity test has passed. *)
Lemma default_call_ok usage func view args :
  (usage, func) ∈ default_registrations →
  (length args <? count (lit " <") usage)%nat
  || (count (lit " ") usage <? length args)%nat = false →
  ∃ t, func view (kwargs usage args) = (t, Val ()).
Proof.
  unfold default_registrations. intros Hin Harity.
  repeat (apply elem_of_cons in Hin as [Hin|Hin];
          [injection Hin as -> ->;
           destruct args as [|x [|y [|z args]]];
           vm_compute in Harity; try discriminate;
           destruct view; vm_compute; eauto|]).
  by apply elem_of_nil in Hin.
Qed.

(** X5. With the default commands registered, [handle_command] never
    raises: for every entry, view and answer of the user it returns a
    boolean. In particular the keyword arguments built from the usage
    string always fit the parameters of the command function. *)
Theorem X5_default_never_raises answer view s :
  ∃ t b, handle_command default_commands answer view s = (t, Val b).
Proof.
  unfold handle_command. destruct s as [|c s]; [by eexists _, _|].
  destruct (fullmatch command_re (c :: s)) eqn:Hm.
  - apply command_word in Hm as (name & rest & _ & _ & _ & Hs & _).
    unfold command_path, index0. rewrite Hs, bind_ret.
    destruct (default_commands !! (SLASH :: name)) as [[usage func]|] eqn:Hlook.
    + destruct (_ || _) eqn:Harity.
      * rewrite bind_emit. by eexists _, _.
      * apply default_commands_lookup in Hlook.
        destruct (default_call_ok usage func view
                    (command_args usage (c :: s)) Hlook Harity) as [t ->].
        rewrite bind_val. by eexists _, _.
    + rewrite bind_ret, bind_emit. by eexists _, _.
  - unfold plain_text_path. rewrite send_lines_spec.
    destruct (3 <? _)%nat; [destruct (answer _)|]; by eexists _, _.
Qed.

End outcomes.

(** ** What is sent, and what a command receives *)

Section payloads.

Implicit Types (s name usage : str) (view : View) (answer : nat → bool).
Implicit Types (cmds : gmap str (str * handler)) (lines : list str).

Lemma escape_message_inj s1 s2 :
  escape_message s1 = escape_message s2 → s1 = s2.
Proof.
  unfold escape_message.
  destruct (startswith (lit "/") s1) eqn:E1, (startswith (lit "/") s2) eqn:E2;
    intros E; [by injection E|..|done].
  - subst s2. done.
  - subst s1. done.
Qed.

Lemma escape_message_lines s :
  fullmatch command_re (escape_message s) = false
  ∧ lines_of (escape_message s) = splitlines s.
Proof.
  unfold escape_message. destruct (startswith (lit "/") s) eqn:E.
  - destruct s as [|c s]; [done|].
    cbn in E. apply andb_true_iff in E as [<-%N.eqb_eq _].
    split; [apply not_command_double_slash | done].
  - split; [by apply not_command_no_slash|]. unfold lines_of.
    assert (startswith (lit "//") s = false) as ->; [|done].
    destruct s as [|c s]; [done|]. cbn in *.
    rewrite andb_true_r in E. by rewrite E.
Qed.

(** X6. Whatever the text, one line or several, starting with a slash or
    not, the escaped text is dispatched as the lines of the text itself: it
    never matches the command pattern, and exactly the slash that
    [escape_message] added is removed again. Two different texts never have
    the same escaped form. *)
Theorem X6_escape_message_dispatch cmds answer view s :
  s ≠ [] →
  fullmatch command_re (escape_message s) = false
  ∧ handle_command cmds answer view (escape_message s)
    = send_lines answer view (splitlines s)
  ∧ ∀ s', escape_message s' = escape_message s → s' = s.
Proof.
  intros Hne. destruct (escape_message_lines s) as [Hm Hl].
  split; [done|]. split; [|intros s'; apply escape_message_inj].
  rewrite handle_command_lines, Hl; [done| |done].
  unfold escape_message. by destruct (startswith _ s).
Qed.

Lemma X6_escape_message_dispatch_witness :
  handle_command default_commands (λ _, true) (ChannelView (lit "#x"))
    (escape_message (lit "/a" ++ [LF] ++ lit "/b"))
  = send_lines (λ _, true) (ChannelView (lit "#x")) [lit "/a"; lit "/b"].
Proof.
  apply (X6_escape_message_dispatch default_commands (λ _, true)
           (ChannelView (lit "#x")) (lit "/a" ++ [LF] ++ lit "/b")).
  vm_compute. discriminate.
Defined.

(** No line of [splitlines] contains a line boundary. *)
Lemma splitlines_single_lines s : Forall single_line (splitlines s).
Proof.
  remember (length s) as n eqn:Hn. revert s Hn.
  induction n as [n IH] using lt_wf_ind. intros s ->.
  destruct s as [|c s]; [constructor|]. cbn [splitlines].
  destruct (is_linebreak c) eqn:Ec.
  - constructor; [done|]. destruct s as [|c' s]; [constructor|].
    destruct (_ && _); (eapply IH; [|done]); simpl; lia.
  - assert (Forall single_line (splitlines s)) as Hs.
    { eapply IH; [|done]. simpl; lia. }
    destruct Hs as [|l ls Hl Hls].
    + constructor; [|constructor]. unfold single_line. cbn. by rewrite Ec.
    + constructor; [|done]. unfold single_line in *. cbn. by rewrite Ec, Hl.
Qed.

Lemma lines_of_single_lines s : Forall single_line (lines_of s).
Proof. unfold lines_of. destruct (startswith _ s); apply splitlines_single_lines. Qed.

Lemma core_calls_send_events view lines :
  core_calls (map (send_event view) lines) = sends (map (send_event view) lines).
Proof.
  unfold core_calls, sends.
  destruct view; (induction lines as [|l lines IH]; [done|]);
    cbn [map send_event List.filter is_core_call is_send]; by rewrite ?IH.
Qed.

Lemma elem_of_send_events view lines target message :
  core_send_privmsg target message ∈ map (send_event view) lines →
  message ∈ lines ∧ (view = ChannelView target ∨ view = PMView target).
Proof.
  intros (line & E & Hin)%list_elem_of_fmap.
  destruct view; cbn in E; try discriminate; injection E as -> ->; eauto.
Qed.

(** X7. On the plain-text path the only calls made on the backend are
    [send_privmsg] calls; each of them goes to the channel or the nick of
    the view, and its text is one of the lines of the entry and contains no
    line boundary. *)
Theorem X7_plain_text_sends_lines cmds answer view s :
  s ≠ [] → fullmatch command_re s = false →
  let run := handle_command cmds answer view s in
  core_calls run.1 = sends run.1
  ∧ ∀ target message,
      core_send_privmsg target message ∈ run.1 →
      message ∈ lines_of s ∧ single_line message
      ∧ (view = ChannelView target ∨ view = PMView target).
Proof.
  intros Hne Hm run. subst run.
  rewrite handle_command_lines, send_lines_spec by done.
  assert (∀ target message,
            core_send_privmsg target message ∈ map (send_event view) (lines_of s) →
            message ∈ lines_of s ∧ single_line message
            ∧ (view = ChannelView target ∨ view = PMView target)) as Hsent.
  { intros target message [Hin Hv]%elem_of_send_events. split_and!; [done| |done].
    pose proof (lines_of_single_lines s) as Hall.
    rewrite Forall_forall in Hall. by apply Hall. }
  destruct (3 <? _)%nat; [destruct (answer _)|]; cbn [fst snd].
  - split; [apply core_calls_send_events|].
    intros target message [?|Hin]%elem_of_cons; [done|]. by apply Hsent.
  - split; [done|]. intros target message [?|Hin%elem_of_nil]%elem_of_cons; done.
  - split; [apply core_calls_send_events | apply Hsent].
Qed.

Lemma X7_plain_text_sends_lines_witness :
  lit "a" ∈ lines_of (lit "a" ++ [CR] ++ lit "b")
  ∧ single_line (lit "a")
  ∧ (PMView (lit "bob") = ChannelView (lit "bob")
     ∨ PMView (lit "bob") = PMView (lit "bob")).
Proof.
  destruct (X7_plain_text_sends_lines default_commands (λ _, true)
              (PMView (lit "bob")) (lit "a" ++ [CR] ++ lit "b")) as [_ H];
    [vm_compute; discriminate | vm_compute; reflexivity |].
  apply H. vm_compute. constructor.
Defined.

Lemma split_max_pieces n s :
  Forall (λ a, a ≠ [] ∧ lstrip a = a) (split_max n s).
Proof.
  revert s. induction n as [|n IH]; intros s; cbn [split_max].
  - destruct (lstrip_by is_space s) as [|c r] eqn:Er; constructor; [|constructor].
    split; [done|]. apply lstrip_id. by eapply (span_snd is_space s).
  - destruct (lstrip_by is_space s) as [|c r] eqn:Er; [constructor|].
    assert (is_space c = false) as Hc by by eapply (span_snd is_space s).
    cbn [span]. rewrite Hc. cbn [negb].
    destruct (span _ r) as [w rest]. constructor; [|apply IH].
    split; [done|]. by apply lstrip_id.
Qed.

Lemma lstrip_by_forallb p q s :
  forallb p s = true → forallb p (lstrip_by q s) = true.
Proof.
  intros H. rewrite <- (span_eq q s) in H.
  by apply forallb_app_true in H as [_ H].
Qed.

Lemma split_max_forallb p n s :
  forallb p s = true → Forall (λ a, forallb p a = true) (split_max n s).
Proof.
  revert s. induction n as [|n IH]; intros s Hs; cbn [split_max];
    pose proof (lstrip_by_forallb p is_space s Hs) as Hr;
    destruct (lstrip_by is_space s) as [|c r]; try constructor;
    try done.
  - pose proof (span_eq (λ c, negb (is_space c)) (c :: r)) as Hsp.
    destruct (span _ (c :: r)) as [w rest]. cbn [fst snd] in Hsp.
    rewrite <- Hsp in Hr. apply forallb_app_true in Hr as [Hw Hrest].
    constructor; [done | by apply IH].
Qed.

(** X8. A command function never receives an empty argument, an argument
    that starts with whitespace, or an argument that contains a line feed:
    every positional argument cut from a line that matches the command
    pattern is non-empty, starts with a character that is not whitespace,
    and is free of line feeds. *)
Theorem X8_command_arguments_solid usage s :
  fullmatch command_re s = true →
  Forall (λ a, a ≠ [] ∧ lstrip a = a ∧ forallb is_dot a = true)
         (command_args usage s).
Proof.
  intros (name & rest & -> & [_ Hn] & Hrest)%command_re_spec.
  assert (forallb is_dot (SLASH :: name ++ rest) = true) as Hdot.
  { cbn [forallb]. apply andb_true_iff. split; [done|].
    apply forallb_app_true. split.
    - revert Hn. apply forallb_impl. unfold is_lower, is_dot, LF. lia.
    - by destruct Hrest as [->|(t & -> & Ht)]. }
  unfold command_args. set (k := Nat.max _ 1).
  pose proof (split_max_pieces k (SLASH :: name ++ rest)) as H1.
  pose proof (split_max_forallb is_dot k _ Hdot) as H2.
  destruct (split_max k _) as [|w l]; [constructor|]. cbn [tail].
  apply Forall_cons in H1 as [_ H1]. apply Forall_cons in H2 as [_ H2].
  rewrite Forall_forall in *. intros a Ha.
  destruct (H1 a Ha). split_and!; [done..|]. by apply H2.
Qed.

Lemma X8_command_arguments_solid_witness :
  Forall (λ a, a ≠ [] ∧ lstrip a = a ∧ forallb is_dot a = true)
         (command_args (lit "/msg <nick> <message>") (lit "/msg  bob   hi  there ")).
Proof.
  apply (X8_command_arguments_solid (lit "/msg <nick> <message>")
           (lit "/msg  bob   hi  there ")).
  vm_compute. reflexivity.
Defined.

End payloads.

(** ** Calling a command *)

Section calls.

Implicit Types (s m rest name usage : str) (reqs opts : list str).
Implicit Types (view : View) (answer : nat → bool).
Implicit Types (cmds : gmap str (str * handler)) (func : handler).






(** A command word and some text: at least one positional argument, and
    exactly one, the text without its leading whitespace, when at most one
    parameter is declared. *)
Lemma some_argument usage name m :
  well_named name → ¬ only_whitespace m →
  head (split (SLASH :: name ++ SPACE :: m)) = Some (SLASH :: name)
  ∧ command_args usage (SLASH :: name ++ SPACE :: m) ≠ []
  ∧ ((count (lit " ") usage ≤ 1)%nat →
     command_args usage (SLASH :: name ++ SPACE :: m) = [lstrip m]).
Proof.
  intros [_ Hn%lower_not_space] Hm.
  assert (word_end (SPACE :: m)) as Hend by by intros c s' [= <- _].
  change (SLASH :: name ++ SPACE :: m) with ((SLASH :: name) ++ SPACE :: m).
  split; [by rewrite split_word|]. unfold command_args.
  destruct (Nat.max (count (lit " ") usage) 1) as [|k] eqn:E; [lia|].
  rewrite split_max_word by done. cbn [tail]. rewrite split_max_space by done.
  split.
  - destruct k; cbn [split_max]; fold (lstrip m); unfold lstrip.
    + destruct (lstrip_by is_space m) eqn:El; [|done].
      by apply lstrip_by_nil_iff in El.
    + destruct (lstrip_by is_space m) eqn:El; [by apply lstrip_by_nil_iff in El|].
      by destruct (span _ _).
  - intros Hc. assert (k = 0%nat) as -> by lia. by apply split_max_0_text.
Qed.










End calls.

(** ** The default commands, one by one *)

Section default_commands.

Implicit Types (s m w rest name usage : str) (view : View) (answer : nat → bool).
Implicit Types (cmds : gmap str (str * handler)) (func : handler).


Lemma run_single_argument cmds answer view name usage func m
    (t : str → list event) :
  well_named name →
  cmds !! (SLASH :: name) = Some (usage, func) →
  count (lit " ") usage = 1%nat → (count (lit " <") usage ≤ 1)%nat →
  (∀ x, func view (kwargs usage [x]) = (t x, Val ())) →
  forallb is_dot m = true → ¬ only_whitespace m →
  handle_command cmds answer view (SLASH :: name ++ SPACE :: m)
  = (t (lstrip m), Val true).
Proof.
  intros Hn Hlook Hc1 Hc2 Hcall Hdot Hm.
  rewrite handle_command_command by by apply command_re_message.
  destruct (some_argument usage name m) as (Htok & _ & Hargs); [done..|].
  specialize (Hargs ltac:(lia)).
  rewrite (command_path_call cmds view _ _ _ func Htok Hlook).
  - by rewrite Hargs, Hcall, bind_val, app_nil_r.
  - by rewrite Hargs.
  - by rewrite Hargs, Hc1.
Qed.

(** X13. "/join", "/nick" and "/part" followed by text pass the whole text
    after the command word, without its leading whitespace, to the
    backend: one [join_channel], [change_nick] or [part_channel] call, in
    any view, and [True] is returned. Text with inner spaces is passed as
    it stands, not split into several channels. *)
Theorem X13_join_nick_part answer view m :
  forallb is_dot m = true → ¬ only_whitespace m →
  handle_command default_commands answer view (lit "/join " ++ m)
  = ([core_join_channel (lstrip m)], Val true)
  ∧ handle_command default_commands answer view (lit "/nick " ++ m)
    = ([core_change_nick (lstrip m)], Val true)
  ∧ handle_command default_commands answer view (lit "/part " ++ m)
    = ([core_part_channel (lstrip m)], Val true).
Proof.
  intros Hdot Hm. split_and!.
  - apply (run_single_argument _ _ _ (lit "join") (lit "/join <channel>")
             (def1 (lit "channel") join) m (λ x, [core_join_channel x]));
      single_argument_command.
  - apply (run_single_argument _ _ _ (lit "nick") (lit "/nick <new_nick>")
             (def1 (lit "new_nick") nick) m (λ x, [core_change_nick x]));
      single_argument_command.
  - apply (run_single_argument _ _ _ (lit "part") (lit "/part [<channel>]")
             (def1_opt (lit "channel") part) m (λ x, [core_part_channel x]));
      single_argument_command.
Qed.

Lemma X13_join_nick_part_witness :
  handle_command default_commands (λ _, true) OtherView (lit "/join " ++ lit "#a #b")
  = ([core_join_channel (lit "#a #b")], Val true).
Proof.
  destruct (X13_join_nick_part (λ _, true) OtherView (lit "#a #b")) as [H _];
    [vm_compute; reflexivity | vm_compute; discriminate |].
  exact H.
Defined.










End default_commands.

(** ** Pasted text *)

Section pasted.

Implicit Types (s : str) (view : View) (answer : nat → bool).
Implicit Types (cmds : gmap str (str * handler)).

Lemma command_is_dot s :
  fullmatch command_re s = true → forallb is_dot s = true.
Proof.
  intros (name & rest & -> & [_ Hn] & Hrest)%command_re_spec.
  cbn [forallb]. apply andb_true_iff. split; [done|].
  apply forallb_app_true. split.
  - revert Hn. apply forallb_impl. unfold is_lower, is_dot, LF. lia.
  - by destruct Hrest as [->|(t & -> & Ht)].
Qed.

(** X17. An entry that contains a line feed is never run as a command,
    whatever it starts with: every one of its lines, a first line such as
    "/join #a" included, goes through the confirmation and the sending loop
    of the plain-text path. *)
Theorem X17_line_feed_means_plain_text cmds answer view s :
  LF ∈ s →
  fullmatch command_re s = false
  ∧ handle_command cmds answer view s = send_lines answer view (lines_of s).
Proof.
  intros Hin.
  assert (fullmatch command_re s = false) as Hm.
  { apply not_true_is_false. intros Hdot%command_is_dot.
    rewrite forallb_Forall, Forall_forall in Hdot. by apply Hdot in Hin. }
  split; [done|]. apply handle_command_lines; [|done]. by intros ->; inversion Hin.
Qed.

Lemma X17_line_feed_means_plain_text_witness :
  handle_command default_commands (λ _, true) (ChannelView (lit "#x"))
    (lit "/join #a" ++ [LF] ++ lit "/join #b")
  = send_lines (λ _, true) (ChannelView (lit "#x")) [lit "/join #a"; lit "/join #b"].
Proof.
  apply (X17_line_feed_means_plain_text default_commands (λ _, true)
           (ChannelView (lit "#x")) (lit "/join #a" ++ [LF] ++ lit "/join #b")).
  vm_compute. do 8 right. left.
Defined.

End pasted.
